(** * Alternative-route search of Interactive.py

    A shallow embedding of [calculate_alternative_routes], of the ranking and
    labelling done by [create_map_with_alternatives] and of the route summary
    printed by [main].

    The script delegates three things to libraries that are not part of the
    repository: the graph object (networkx), the path search
    ([nx.astar_path], [nx.astar_path_length]) and the random selection
    ([np.random.choice]).  The graph and the selection are modelled from the
    documented behaviour of the calls the script makes; the path search is a
    parameter constrained by the Path Finder contract, and a reference search
    shows that the contract can be met. *)

From Stdlib Require Import ZArith QArith Qreduction PrimFloat Uint63.
From stdpp Require Import gmap strings sorting pretty.

#[local] Set Warnings "-clear-no-such-hyp".
#[local] Set Warnings "-inexact-float".

(** ** Numbers

    Route lengths are Python numbers (the [length] attribute of an edge is a
    float).  The program adds them, compares them with [<], divides and
    multiplies them; [Number] is that interface.  [of_int] reads an integer
    literal of the script. *)

Class Number (W : Type) := {
  num_add : W -> W -> W;
  num_mul : W -> W -> W;
  num_div : W -> W -> W;
  num_ltb : W -> W -> bool;
  of_int : Z -> W;
}.

(** Python floats: IEEE 754 binary64, as the kernel's primitive floats. *)
#[export] Instance float_number : Number float := {|
  num_add := PrimFloat.add;
  num_mul := PrimFloat.mul;
  num_div := PrimFloat.div;
  num_ltb := PrimFloat.ltb;
  of_int z := PrimFloat.of_uint63 (Uint63.of_Z z);
|}.

(** Exact rationals: the same operations without rounding. *)
#[export] Instance Q_number : Number Q := {|
  num_add a b := Qred (a + b);
  num_mul a b := Qred (a * b);
  num_div a b := Qred (a / b);
  num_ltb a b := negb (Qle_bool b a);
  of_int z := inject_Z z;
|}.

(** The laws of [<] that sorting relies on. *)
Class NumberOrder (W : Type) {NW : Number W} : Prop := {
  num_ltb_irrefl : forall a : W, num_ltb a a = false;
  num_ltb_trans : forall a b c : W,
    num_ltb a b = true -> num_ltb b c = true -> num_ltb a c = true;
}.

(** ** Exceptions and results *)

Inductive exn : Set :=
  | NetworkXNoPath
  | NodeNotFound
  | ValueError.

#[export] Instance exn_eq_dec : EqDecision exn.
Proof. solve_decision. Defined.

Inductive result (A : Type) : Type :=
  | Ok (a : A)
  | Raise (e : exn).
Arguments Ok {A} a.
Arguments Raise {A} e.

(** ** Graphs *)

(** Modelled from the spec: the graph class (networkx's [MultiDiGraph]) is
    library code, not under src/.  Section 3 of the specification has nodes
    with an identifier, directed edges with a non-negative length, parallel
    edges allowed.  The model keeps the nodes (OSM identifiers, Python ints)
    and the edges with their [length], a parallel edge being a repeated
    entry.  An edge whose endpoint is not a node does not exist in networkx;
    [has_edge] asks for both endpoints. *)

Definition node := Z.

Record Graph (W : Type) : Type := mkGraph {
  nodes : list node;
  edges : list (node * node * W);
}.
Arguments mkGraph {W} _ _.
Arguments nodes {W} _.
Arguments edges {W} _.

Section Graphs.
Context {W : Type} {NW : Number W}.

Definition empty_graph : Graph W := mkGraph [] [].

(** [n in G] *)
Definition has_node (G : Graph W) (n : node) : bool :=
  bool_decide (n ∈ nodes G).

(** [G[u][v]]: the lengths of the parallel edges from [u] to [v]. *)
Definition parallel_lengths (G : Graph W) (u v : node) : list W :=
  omap (fun e : node * node * W =>
          if decide (e.1.1 = u ∧ e.1.2 = v) then Some e.2 else None)
       (edges G).

Definition has_edge (G : Graph W) (u v : node) : bool :=
  has_node G u && has_node G v &&
  match parallel_lengths G u v with [] => false | _ => true end.

(** The out-neighbours of [u]. *)
Definition successors (G : Graph W) (u : node) : list node :=
  filter (fun v => has_edge G u v = true) (nodes G).

(** [G.remove_node(n)]: the node and every edge incident to it go; a node
    that is not in the graph is passed over ([remove_nodes_from] swallows
    the [KeyError]). *)
Definition remove_node (G : Graph W) (n : node) : Graph W :=
  mkGraph (filter (fun m => m ≠ n) (nodes G))
          (filter (fun e : node * node * W => e.1.1 ≠ n ∧ e.1.2 ≠ n) (edges G)).

(** [G.remove_nodes_from(ns)] on a graph value. *)
Definition remove_nodes (G : Graph W) (ns : list node) : Graph W :=
  fold_left remove_node ns G.

(** Python's [min] over a non-empty sequence: the first least element. *)
Definition py_min (x : W) (xs : list W) : W :=
  fold_left (fun m y => if num_ltb y m then y else m) xs x.

(** networkx's weight function on a multigraph: the least [length] among the
    parallel edges.  On a pair without an edge networkx raises [KeyError];
    a path returned by the search has no such pair, and the model gives
    the literal 0 there. *)
Definition edge_weight (G : Graph W) (u v : node) : W :=
  match parallel_lengths G u v with
  | [] => of_int 0
  | w :: ws => py_min w ws
  end.

(** [zip(path[:-1], path[1:])] *)
Fixpoint steps (path : list node) : list (node * node) :=
  match path with
  | u :: (v :: _) as rest => (u, v) :: steps rest
  | _ => []
  end.

(** [sum(weight(u, v, G[u][v]) for u, v in zip(path[:-1], path[1:]))]:
    Python's [sum] starts from the int 0 and adds from the left. *)
Definition path_length (G : Graph W) (path : list node) : W :=
  fold_left num_add (map (fun uv => edge_weight G uv.1 uv.2) (steps path)) (of_int 0).

(** A walk: a non-empty node sequence whose consecutive nodes are joined by
    an edge of [G]. *)
Fixpoint is_walk (G : Graph W) (p : list node) : Prop :=
  match p with
  | [] => False
  | [u] => has_node G u = true
  | u :: (v :: _) as rest => has_edge G u v = true ∧ is_walk G rest
  end.

(** A route from [s] to [t] in [G]. *)
Definition is_route (G : Graph W) (s t : node) (p : list node) : Prop :=
  is_walk G p ∧ head p = Some s ∧ last p = Some t.

Definition reachable (G : Graph W) (s t : node) : Prop :=
  ∃ p, is_route G s t p.
End Graphs.

(** ** Path Finder

    [nx.astar_path(G, source, target, weight='length')] is library code, not
    under src/; the model takes it as a parameter
    [astar_path : PathFinder W]. *)

Definition PathFinder (W : Type) : Type :=
  Graph W -> node -> node -> result (list node).

(** Modelled from the spec: the contract of the Path Finder (section 4.1).
    A returned path is a route from source to target in the graph searched;
    [NodeNotFound] is raised only for an endpoint that is not in the graph,
    [NetworkXNoPath] only when both are; a target that can be reached is
    reached; nothing else is raised.  (A* with the default zero heuristic
    also returns a path of least total length; no property proved here
    depends on that.) *)
Record path_finder_contract {W : Type} {NW : Number W} (astar_path : PathFinder W) : Prop := {
  pf_sound : forall G s t p,
    astar_path G s t = Ok p -> is_route G s t p;
  pf_complete : forall G s t,
    reachable G s t -> ∃ p, astar_path G s t = Ok p;
  pf_raises : forall G s t e,
    astar_path G s t = Raise e ->
    (e = NodeNotFound ∧ (has_node G s = false ∨ has_node G t = false)) ∨
    (e = NetworkXNoPath ∧ has_node G s = true ∧ has_node G t = true);
}.

(** Modelled from the spec: [nx.astar_path_length] is library code, not
    under src/; section 4.1 has the total weight of the path found.  As in
    networkx, the endpoints are checked, the path is searched with
    [astar_path] and the weights along it are summed. *)
Definition astar_path_length {W : Type} {NW : Number W} (astar_path : PathFinder W)
    (G : Graph W) (s t : node) : result W :=
  if negb (has_node G s) || negb (has_node G t) then Raise NodeNotFound
  else match astar_path G s t with
       | Ok path => Ok (path_length G path)
       | Raise e => Raise e
       end.

(** ** Random selection

    [np.random.choice] is library code, not under src/; it draws from
    numpy's global [RandomState].  [Sampler R] is that generator with state
    [R], a parameter of the model: [permutation g n] is
    [RandomState.permutation(n)], a shuffle of [0 .. n-1], with the state the
    generator is left in. *)

Definition Sampler (R : Type) : Type := R -> nat -> list nat * R.

Definition sampler_contract {R : Type} (permutation : Sampler R) : Prop :=
  forall g n, (permutation g n).1 ≡ₚ seq 0 n.

(** [prev_route[1:-1]] *)
Definition interior (route : list node) : list node := removelast (tail route).

(** [len(prev_route) - 2], a Python int. *)
Definition interior_size (route : list node) : Z := Z.of_nat (length route) - 2.

(** ** The program state: graph objects and the generator

    Graphs are mutable objects; a variable holds a reference.  [graphs] maps
    references to graph values, [rng] is numpy's global generator state. *)

Definition ref := nat.

Record state (W R : Type) : Type := mkState {
  graphs : gmap ref (Graph W);
  rng : R;
}.
Arguments mkState {W R} _ _.
Arguments graphs {W R} _.
Arguments rng {W R} _.

(** Computations that read and write the state and may raise; the state
    reached is kept when an exception is raised. *)
Definition M (W R A : Type) : Type := state W R -> result A * state W R.

Section Monad.
Context {W R : Type}.

#[export] Instance M_ret : MRet (M W R) := fun A a σ => (Ok a, σ).

#[export] Instance M_bind : MBind (M W R) := fun A B k m σ =>
  match m σ with
  | (Ok a, σ') => k a σ'
  | (Raise e, σ') => (Raise e, σ')
  end.

Definition raise {A} (e : exn) : M W R A := fun σ => (Raise e, σ).

(** [try: m  except <handled>: h] *)
Definition try_except {A} (m : M W R A) (handled : exn -> bool) (h : M W R A) : M W R A :=
  fun σ => match m σ with
           | (Ok a, σ') => (Ok a, σ')
           | (Raise e, σ') => if handled e then h σ' else (Raise e, σ')
           end.

(** [for x in xs: body x] *)
Fixpoint for_each {A} (xs : list A) (body : A -> M W R unit) : M W R unit :=
  match xs with
  | [] => mret tt
  | x :: xs' => body x;; for_each xs' body
  end.
End Monad.

(** ** [calculate_alternative_routes] (lines 55-79) *)

(** A route with its recorded length: an element of the list returned. *)
Abbreviation Route W := (list node * W)%type.

(** [except (nx.NetworkXNoPath, nx.NodeNotFound)] *)
Definition is_path_error (e : exn) : bool :=
  match e with
  | NetworkXNoPath | NodeNotFound => true
  | ValueError => false
  end.

Section Program.
Context {W R : Type} {NW : Number W}.
Variable astar_path : PathFinder W.
Variable permutation : Sampler R.

(** The graph a reference points to. *)
Definition graph_at (σ : state W R) (G : ref) : Graph W :=
  default empty_graph (graphs σ !! G).

(** Modelled from the spec: [G.copy()] is library code, not under src/; a
    Graph Snapshot (section 3) is an independently mutable copy: a new graph
    object with the nodes and edges of [G]. *)
Definition copy (G : ref) : M W R ref := fun σ =>
  let temp_G := fresh (dom (graphs σ)) in
  (Ok temp_G, mkState (<[temp_G := graph_at σ G]> (graphs σ)) (rng σ)).

(** Modelled from the spec: [G.remove_nodes_from(ns)] is library code, not
    under src/; section 4.2 has the nodes removed with their incident edges.
    The call changes the object [G] refers to. *)
Definition remove_nodes_from (G : ref) (ns : list node) : M W R unit := fun σ =>
  (Ok tt, mkState (alter (fun g => remove_nodes g ns) G (graphs σ)) (rng σ)).

Definition nx_astar_path (G : ref) (s t : node) : M W R (list node) := fun σ =>
  (astar_path (graph_at σ G) s t, σ).

Definition nx_astar_path_length (G : ref) (s t : node) : M W R W := fun σ =>
  (astar_path_length astar_path (graph_at σ G) s t, σ).

(** Modelled from the spec: [np.random.choice(a, size=size, replace=False)]
    is library code, not under src/; section 4.2 has a selection at random
    without replacement.  The refusals are those of numpy's
    [RandomState.choice] for a list [a] and an int [size], which the
    specification does not describe: an empty [a] is refused with
    [ValueError] "'a' cannot be empty unless no samples are taken" when
    [size] is not 0; a [size] above the population ("Cannot take a larger
    sample than population when 'replace=False'") or below 0 ("negative
    dimensions are not allowed") is refused too; otherwise the result is
    [a[permutation(len(a))[:size]]]. *)
Definition choice (a : list node) (size : Z) : M W R (list node) := fun σ =>
  let pop_size := length a in
  if bool_decide (pop_size = 0%nat) && negb (bool_decide (size = 0%Z)) then
    (Raise ValueError, σ)
  else if bool_decide (Z.of_nat pop_size < size)%Z then (Raise ValueError, σ)
  else if bool_decide (size < 0)%Z then (Raise ValueError, σ)
  else
    let '(idx, g) := permutation (rng σ) pop_size in
    (Ok (omap (fun i => a !! i) (take (Z.to_nat size) idx)), mkState (graphs σ) g).

(** Lines 63-64 and 74-75: the route and its length on the graph [G]. *)
Definition search (G : ref) (s t : node) : M W R (Route W) :=
  route ← nx_astar_path G s t;
  distance ← nx_astar_path_length G s t;
  mret (route, distance).

(** Lines 70-73: the nodes taken away for one earlier route. *)
Definition deplete (temp_G : ref) (prev : Route W) : M W R unit :=
  nodes_to_remove ← choice (interior prev.1) (Z.min 3 (interior_size prev.1));
  remove_nodes_from temp_G nodes_to_remove.

(** Lines 67-73: the copy of [G] with nodes of every earlier route removed. *)
Definition perturbed_copy (G : ref) (routes : list (Route W)) : M W R ref :=
  temp_G ← copy G;
  for_each routes (deplete temp_G);;
  mret temp_G.

(** Lines 61-75: what iteration [i] computes before [routes.append]. *)
Definition attempt (G : ref) (s t : node) (i : nat) (routes : list (Route W)) : M W R (Route W) :=
  if (i =? 0)%nat then search G s t
  else temp_G ← perturbed_copy G routes; search temp_G s t.

(** Lines 60-78: one pass of the loop body; the value is the list [routes]
    after it ([continue] leaves the list as it was). *)
Definition iteration (G : ref) (s t : node) (i : nat) (routes : list (Route W)) : M W R (list (Route W)) :=
  try_except
    (r ← attempt G s t i routes; mret (routes ++ [r]))
    is_path_error
    (mret routes).

(** [for i in indices: ...] on the list [routes]. *)
Fixpoint for_range (G : ref) (s t : node) (indices : list nat) (routes : list (Route W)) : M W R (list (Route W)) :=
  match indices with
  | [] => mret routes
  | i :: rest => routes' ← iteration G s t i routes; for_range G s t rest routes'
  end.

Definition calculate_alternative_routes (G : ref) (start_node end_node : node) (num_routes : Z) : M W R (list (Route W)) :=
  for_range G start_node end_node (seq 0 (Z.to_nat num_routes)) [].
End Program.

(** ** Ranking and presentation

    [create_map_with_alternatives] (lines 81-151) and the route summary of
    [main] (lines 180-201).  The folium calls only draw; what is kept of the
    map is the data computed for it. *)

Record PolyLine (W : Type) : Type := mkPolyLine {
  locations : list node;  (* the nodes whose (y, x) positions are drawn *)
  line_weight : Z;
  color : string;
  popup_km : W;           (* the number shown in "Distance: ... km" *)
  tooltip : string;
}.
Arguments mkPolyLine {W} _ _ _ _ _.
Arguments locations {W} _.
Arguments line_weight {W} _.
Arguments color {W} _.
Arguments popup_km {W} _.
Arguments tooltip {W} _.

Record FoliumMap (W : Type) : Type := mkMap {
  shortest_km : W;   (* min(distances_km) in the hospital popup *)
  shortest_min : W;  (* min(times_min) in the hospital popup *)
  polylines : list (PolyLine W);
}.
Arguments mkMap {W} _ _ _.
Arguments shortest_km {W} _.
Arguments shortest_min {W} _.
Arguments polylines {W} _.

Definition colors : list string := ["green"; "darkblue"; "red"].
Definition labels : list string := ["Shortest Route"; "Alternative Route"; "Longest Route"].

Section Ranking.
Context {W : Type} {NW : Number W}.

(** [dist/1000] (lines 97, 132, 198) *)
Definition distance_km (distance : W) : W := num_div distance (of_int 1000).

(** [d/40*60] (lines 98, 199) *)
Definition time_min (km : W) : W := num_mul (num_div km (of_int 40)) (of_int 60).

(** Line 97: [[dist/1000 for _, dist in routes]] *)
Definition distances_km (routes : list (Route W)) : list W :=
  map (fun r => distance_km r.2) routes.

(** Line 98: [[d/40*60 for d in distances_km]] *)
Definition times_min (kms : list W) : list W := map time_min kms.

(** [min(xs)]: [ValueError] on an empty list. *)
Definition min_of (xs : list W) : result W :=
  match xs with
  | [] => Raise ValueError
  | x :: xs' => Ok (py_min x xs')
  end.

(** [routes.sort(key=lambda x: x[1])].  [list.sort] is the interpreter's, not
    under src/; Python documents it as a stable sort that compares the keys
    with [<] only.  The model is the stable insertion sort:
    [insert_by_length] puts a route behind every route that is not longer.
    The two agree when [<] is a strict weak order on the lengths given
    ([strict_weak_onb] below): the ascending arrangement that keeps routes of
    equal length in their order is then unique ([sort_by_length_unique]).
    Without that the outcome of [list.sort] depends on its merge strategy:
    for the lengths 2.0, NaN, 1.0 it leaves the list as it is, and the
    insertion sort gives 1.0, 2.0, NaN.  Properties of the order of the
    sorted list are therefore stated for lengths that pass
    [strict_weak_onb]. *)
Fixpoint insert_by_length (x : Route W) (sorted : list (Route W)) : list (Route W) :=
  match sorted with
  | [] => [x]
  | y :: rest =>
      if num_ltb x.2 y.2 then x :: y :: rest else y :: insert_by_length x rest
  end.

Definition sort_by_length (routes : list (Route W)) : list (Route W) :=
  fold_left (fun sorted x => insert_by_length x sorted) routes [].

(** Lines 124-134: the line drawn for the route at position [i]. *)
Definition polyline (i : nat) (r : Route W) : PolyLine W :=
  mkPolyLine r.1
             (if (i =? 0)%nat then 4 else 3)
             (colors !!! (i `min` (length colors - 1))%nat)
             (distance_km r.2)
             (labels !!! (i `min` (length labels - 1))%nat).

(** The function returns the map; the second component is the caller's
    list [routes] after the call, which line 117 has sorted in place. *)
Definition create_map_with_alternatives (routes : list (Route W)) : result (FoliumMap W * list (Route W)) :=
  let kms := distances_km routes in
  let mins := times_min kms in
  match min_of kms, min_of mins with
  | Ok km, Ok mn =>
      let routes := sort_by_length routes in
      Ok (mkMap km mn (imap polyline routes), routes)
  | Raise e, _ | _, Raise e => Raise e
  end.

(** Line 200 *)
Definition route_type (i : nat) : string :=
  if (i =? 0)%nat then "Shortest" else if (i =? 1)%nat then "Alternative" else "Longest".

(** Lines 197-201: one summary line per route. *)
Definition route_summary (routes : list (Route W)) : list (string * W * W) :=
  imap (fun i r => (route_type i, distance_km r.2, time_min (distance_km r.2))) routes.
End Ranking.

Section Main.
Context {W R : Type} {NW : Number W}.
Variable astar_path : PathFinder W.
Variable permutation : Sampler R.

(** Lines 180-201 of [main]: [None] is the "No route found" exit. *)
Definition main (G : ref) (current_node hospital_node : node) : M W R (option (FoliumMap W * list (string * W * W))) :=
  routes ← calculate_alternative_routes astar_path permutation G current_node hospital_node 3;
  match routes with
  | [] => mret None
  | _ =>
      match create_map_with_alternatives routes with
      | Ok (m, routes) => mret (Some (m, route_summary routes))
      | Raise e => raise e
      end
  end.
End Main.

(** ** A reference Path Finder and a reference generator

    [reference_astar] meets the Path Finder contract by enumerating the simple
    paths and keeping the first of least length; [rotation] is a generator
    whose state is a counter. *)

Section Reference.
Context {W : Type} {NW : Number W}.

(** The simple paths from [u] to [t] that avoid [visited], of at most
    [fuel] edges. *)
Fixpoint simple_paths (fuel : nat) (G : Graph W) (visited : list node) (u t : node) : list (list node) :=
  if decide (u = t) then [[t]]
  else match fuel with
       | O => []
       | S fuel' =>
           flat_map
             (fun v => if decide (v ∈ u :: visited) then []
                       else map (cons u) (simple_paths fuel' G (u :: visited) v t))
             (successors G u)
       end.

Definition shortest_of (G : Graph W) (p : list node) (ps : list (list node)) : list node :=
  fold_left (fun best q => if num_ltb (path_length G q) (path_length G best) then q else best) ps p.

Definition reference_astar : PathFinder W := fun G s t =>
  if negb (has_node G s) || negb (has_node G t) then Raise NodeNotFound
  else match simple_paths (length (nodes G)) G [] s t with
       | [] => Raise NetworkXNoPath
       | p :: ps => Ok (shortest_of G p ps)
       end.
End Reference.

Definition rotation : Sampler nat := fun g n => (rotate g (seq 0 n), S g).

(** The same shuffles from a generator that keeps its counter as an integer. *)
Definition rotation_Z : Sampler Z := fun g n =>
  (rotate (Z.to_nat g) (seq 0 n), (g + 1)%Z).

(** ** The terminal (lines 10-53)

    The functions that talk to the user write to the terminal, sleep and
    read lines.  What a function does is kept as the list of its events, in
    order; the lines typed are a list of strings. *)

(** Lines 11-19: the dict, an association list in insertion order. *)
Definition hospital_locations : list (string * (float * float)) :=
  [("Apollo Speciality Hospitals", (9.92845107063264, 78.1490877660568));
   ("Meenakshi Mission Hospital", (9.94802716543532, 78.1629092749301));
   ("Velammal Medical College Hospital", (9.886849012033327, 78.15014381533766));
   ("AVSS Hospital", (9.91758806933076, 78.13921992029667));
   ("Madurai Medical College", (9.929116498156905, 78.1370005945043));
   ("Booma Nursing Home", (9.935864108998347, 78.13466017122525));
   ("Venkateswara Hospital", (9.925768390898137, 78.13276213497977))]%float.

(** Line 22 *)
Definition current_location : float * float :=
  (9.918335304387874, 78.1134397514805)%float.

(** The characters written as backslash-n and backslash-r in the script. *)
Definition nl : string := String (Ascii.ascii_of_nat 10) EmptyString.
Definition cr : string := String (Ascii.ascii_of_nat 13) EmptyString.

Inductive event : Type :=
  | Write (s : string)       (* sys.stdout.write(s) *)
  | Flush                    (* sys.stdout.flush() *)
  | Sleep (seconds : float). (* time.sleep(seconds) *)

(** [print(s)]: the text and a newline. *)
Definition print (s : string) : event := Write (s +:+ nl).

(** [s * n] on a string. *)
Fixpoint str_repeat (s : string) (n : nat) : string :=
  match n with
  | O => EmptyString
  | S n' => s +:+ str_repeat s n'
  end.

(** [enumerate(xs, start)] *)
Definition enumerate {A : Type} (start : nat) (xs : list A) : list (nat * A) :=
  imap (fun i x => ((start + i)%nat, x)) xs.

(** Line 26 *)
Definition animation : string := "|/-\".

(** Lines 28-31: one frame. *)
Definition frame (char : Ascii.ascii) : list event :=
  [Write (cr +:+ "Loading... " +:+ String char EmptyString); Flush; Sleep 0.1%float].

(** Lines 24-32.  [range(duration * 10)] is empty for a duration of 0 or
    less. *)
Definition display_loading_animation (duration : Z) : list event :=
  flat_map (fun _ : nat => flat_map frame (String.list_ascii_of_string animation))
           (seq 0 (Z.to_nat (duration * 10)))
  ++ [Write (cr +:+ str_repeat " " 20 +:+ cr)].

(** What [input] raises at the end of the input; [except ValueError] does
    not catch it. *)
Inductive input_result (A : Type) : Type :=
  | Returned (a : A)
  | EOFError.
Arguments Returned {A} a.
Arguments EOFError {A}.

Section Terminal.
(** Python's formatting of a tuple of floats in an f-string, and Python's
    [int] on a string ([None] for [ValueError]); both are the interpreter's,
    parameters here. *)
Variable repr : float * float -> string.
Variable py_int : string -> option Z.
Variable locations : list (string * (float * float)).

(** Lines 34-41, for the dict [locations]. *)
Definition display_hospitals : list event :=
  [print (nl +:+ "=== Available Hospitals ==="); print (str_repeat "-" 50)] ++
  flat_map (fun entry : nat * (string * (float * float)) =>
              [print (pretty entry.1 +:+ ". " +:+ entry.2.1);
               print ("   Coordinates: " +:+ repr entry.2.2);
               print (str_repeat "-" 50)])
           (enumerate 1 locations).

(** Lines 47-48, up to the reading of the line. *)
Definition ask : list event :=
  [print (nl +:+ "Select a hospital by entering its number:");
   Write "Your choice (1-7): "].

(** Lines 43-53, for the dict [locations] and the lines still to be read:
    the outcome, the lines left unread and what was written. *)
Fixpoint get_user_selection (stdin : list string) : input_result string * list string * list event :=
  match stdin with
  | [] => (EOFError, [], ask)
  | line :: rest =>
      match py_int line with
      | Some choice =>
          if bool_decide (1 ≤ choice ≤ Z.of_nat (length locations))%Z then
            (Returned (default EmptyString (locations.*1 !! Z.to_nat (choice - 1))), rest, ask)
          else
            let '(outcome, unread, written) := get_user_selection rest in
            (outcome, unread, ask ++ print "Invalid selection. Please try again." :: written)
      | None =>
          let '(outcome, unread, written) := get_user_selection rest in
          (outcome, unread, ask ++ print "Please enter a valid number." :: written)
      end
  end.

(** A line that ends the loop: an int between 1 and the number of entries. *)
Definition accepted (line : string) : bool :=
  match py_int line with
  | Some choice => bool_decide (1 ≤ choice ≤ Z.of_nat (length locations))%Z
  | None => false
  end.

(** What is written for lines that are not accepted: the question, and the
    message for the line. *)
Definition rejections (lines : list string) : list event :=
  flat_map (fun line =>
              ask ++ [match py_int line with
                      | Some _ => print "Invalid selection. Please try again."
                      | None => print "Please enter a valid number."
                      end])
           lines.
End Terminal.

(** Lines 141-143: the legend drawn on the map, colour and meaning. *)
Definition legend : list (string * string) :=
  [("green", "Shortest Route"); ("darkblue", "Alternative Route"); ("red", "Longest Route")].

(** A reader of unsigned decimal numerals, which [int] reads the same way. *)
Fixpoint digits_value (acc : Z) (s : string) : option Z :=
  match s with
  | EmptyString => Some acc
  | String c s' =>
      let d := Z.of_nat (Ascii.nat_of_ascii c) in
      if bool_decide (48 ≤ d ≤ 57)%Z then digits_value (10 * acc + (d - 48)) s' else None
  end.

Definition decimal (s : string) : option Z :=
  match s with
  | EmptyString => None
  | _ => digits_value 0 s
  end.

(** A stand-in for the formatting of coordinates. *)
Definition plain_repr (coords : float * float) : string := "(lat, lon)".

(** ** Vocabulary of the properties *)

(** [sel] is a draw without replacement of [k] elements of [a]: the elements
    at [k] distinct positions of [a]. *)
Definition drawn (a : list node) (k : nat) (sel : list node) : Prop :=
  ∃ idx : list nat,
    NoDup idx ∧ length idx = k ∧ Forall2 (fun i x => a !! i = Some x) idx sel.

(** What the second state keeps of the first: every graph object of the first
    is still there with the nodes and edges it had. *)
Definition preserves {W R : Type} (σ σ' : state W R) : Prop :=
  graphs σ ⊆ graphs σ'.

(** The route [r] and its recorded length are what the search gives on a
    snapshot of [G]: [G] less the nodes [ns]. *)
Definition computed_on {W : Type} {NW : Number W} (astar_path : PathFinder W)
    (G : Graph W) (s t : node) (ns : list node) (r : Route W) : Prop :=
  astar_path (remove_nodes G ns) s t = Ok r.1 ∧
  r.2 = path_length (remove_nodes G ns) r.1.

(** Ascending order of the recorded lengths: no route is shorter than one
    placed before it. *)
Definition not_longer {W : Type} {NW : Number W} (a b : Route W) : Prop :=
  num_ltb b.2 a.2 = false.

Definition ascending {W : Type} {NW : Number W} (routes : list (Route W)) : Prop :=
  StronglySorted not_longer routes.

(** [<] is a strict weak order on the numbers [ks]: no number is below
    itself, [<] is transitive, and so is "neither is below the other".
    Finite floats pass; a NaN among two different numbers does not. *)
Definition strict_weak_onb {W : Type} {NW : Number W} (ks : list W) : bool :=
  forallb (fun a => negb (num_ltb a a)) ks &&
  forallb (fun a =>
    forallb (fun b =>
      forallb (fun c =>
        implb (num_ltb a b && num_ltb b c) (num_ltb a c) &&
        implb (negb (num_ltb a b) && negb (num_ltb b c)) (negb (num_ltb a c)))
      ks) ks) ks.

(** The route [r] is as long as [k]: neither number is below the other. *)
Definition tied {W : Type} {NW : Number W} (k : W) (r : Route W) : bool :=
  negb (num_ltb k r.2) && negb (num_ltb r.2 k).

(** Stability: the routes of any one length come in [sorted] in the order
    they have in [routes]. *)
Definition keeps_ties {W : Type} {NW : Number W} (routes sorted : list (Route W)) : Prop :=
  ∀ r, r ∈ routes →
    filter (fun x => tied r.2 x = true) sorted = filter (fun x => tied r.2 x = true) routes.

(** Division by 1000 neither reorders nor merges the numbers [ks]:
    [a/1000 < b/1000] exactly when [a < b]. *)
Definition km_keeps_order {W : Type} {NW : Number W} (ks : list W) : bool :=
  forallb (fun a =>
    forallb (fun b =>
      Bool.eqb (num_ltb (distance_km a) (distance_km b)) (num_ltb a b)) ks) ks.

(** The labelling as the specification words it, for position [i] of [n]
    routes: "Shortest" first, "Longest" last when there are three or more,
    "Alternative" otherwise. *)
Definition spec_label (n i : nat) : string :=
  if (i =? 0)%nat then "Shortest"
  else if (3 <=? n)%nat && (i =? n - 1)%nat then "Longest"
  else "Alternative".

(** An outcome that reports an error to the caller. *)
Definition escalates {A : Type} (o : result A) : bool :=
  match o with
  | Raise _ => true
  | Ok _ => false
  end.

(** Two generators, in states related by [rel], that yield the same
    permutations from there on. *)
Definition same_draws {R1 R2 : Type} (perm1 : Sampler R1) (perm2 : Sampler R2)
    (rel : R1 -> R2 -> Prop) : Prop :=
  forall g1 g2 n, rel g1 g2 ->
    (perm1 g1 n).1 = (perm2 g2 n).1 ∧ rel (perm1 g1 n).2 (perm2 g2 n).2.

(** States with the same graph objects and related generators. *)
Definition same_world {W R1 R2 : Type} (rel : R1 -> R2 -> Prop)
    (σ1 : state W R1) (σ2 : state W R2) : Prop :=
  graphs σ1 = graphs σ2 ∧ rel (rng σ1) (rng σ2).

(** Two computations that, run in such states, have the same outcome and
    end in such states. *)
Definition same_run {W R1 R2 A : Type} (rel : R1 -> R2 -> Prop)
    (m1 : M W R1 A) (m2 : M W R2 A) : Prop :=
  forall σ1 σ2, same_world rel σ1 σ2 ->
    (m1 σ1).1 = (m2 σ2).1 ∧ same_world rel (m1 σ1).2 (m2 σ2).2.

(** The arguments of the [time.sleep] calls among the events, in order. *)
Definition sleeps (events : list event) : list float :=
  omap (fun e => match e with Sleep seconds => Some seconds | _ => None end) events.

(** The lines the examples type and the routes they rank. *)
Definition typed_lines : list string := ["abc"; "9"; "0"; "3"; "5"].

Definition ascending_routes : list (Route Q) :=
  [([1; 5]%Z, 400%Q); ([1; 6; 5]%Z, 700%Q); ([1; 2; 5]%Z, 700%Q); ([1; 3; 4; 5]%Z, 1200%Q)].

(** ** Inputs used below *)

(** A graph with one node and no edge. *)
Definition one_node_graph {W : Type} : Graph W := mkGraph [1%Z] [].

(** Two nodes joined by one road of 500 m, from 1 to 2. *)
Definition direct_edge_graph : Graph float := mkGraph [1%Z; 2%Z] [(1%Z, 2%Z, 500%float)].

(** Two nodes and no road. *)
Definition two_islands : Graph float := mkGraph [1%Z; 2%Z] [].

(** Two-way roads. *)
Definition two_way {W : Type} (roads : list (node * node * W)) : list (node * node * W) :=
  roads ++ map (fun e => (e.1.2, e.1.1, e.2)) roads.

(** The scenario of the specification: A-B-C-D-E along one road and the
    longer A-F-G-E beside it (A..G are 1..7). *)
Definition scenario_graph : Graph float :=
  mkGraph [1; 2; 3; 4; 5; 6; 7]%Z
    (two_way [(1, 2, 100%float); (2, 3, 100%float); (3, 4, 100%float); (4, 5, 100%float);
              (1, 6, 300%float); (6, 7, 300%float); (7, 5, 300%float)]%Z).

(** The state at the call: the graph is the object 0, the generator a
    counter at 0. *)
Definition initial {W : Type} (G : Graph W) : state W nat :=
  mkState {[ 0%nat := G ]} 0%nat.

(** Four routes with their lengths, not in order. *)
Definition four_routes : list (Route Q) :=
  [([1; 2; 5]%Z, 900%Q); ([1; 5]%Z, 400%Q); ([1; 3; 4; 5]%Z, 1200%Q); ([1; 6; 5]%Z, 700%Q)].

(** Routes with float lengths, not in order, two of them equally long. *)
Definition float_routes : list (Route float) :=
  [([1; 2; 5]%Z, 900%float); ([1; 6; 5]%Z, 700%float); ([1; 5]%Z, 400%float);
   ([1; 3; 4; 5]%Z, 1200%float); ([1; 7; 5]%Z, 700%float)].

(** Lengths with a NaN between two numbers. *)
Definition nan_lengths : list float := [2%float; nan; 1%float].

(** One two-way road 1-2-3 of 100 m pieces. *)
Definition single_road : Graph float :=
  mkGraph [1; 2; 3]%Z (two_way [(1, 2, 100%float); (2, 3, 100%float)]%Z).

(** * Properties *)

(** ** Graphs, walks and node removal *)

Section GraphFacts.
Context {W : Type} {NW : Number W}.
Implicit Types (G : Graph W) (p : list node) (ns : list node) (n m u v s t : node).

Lemma has_node_true G n : has_node G n = true ↔ n ∈ nodes G.
Proof. unfold has_node. by rewrite bool_decide_eq_true. Qed.

Lemma has_edge_true G u v :
  has_edge G u v = true ↔
  has_node G u = true ∧ has_node G v = true ∧ parallel_lengths G u v ≠ [].
Proof.
  unfold has_edge. rewrite !andb_true_iff.
  destruct (parallel_lengths G u v); naive_solver.
Qed.

Lemma has_node_remove_node G n m :
  has_node (remove_node G n) m = true ↔ has_node G m = true ∧ m ≠ n.
Proof.
  rewrite !has_node_true. simpl. rewrite list_elem_of_filter. naive_solver.
Qed.

Lemma parallel_lengths_remove_node G n u v :
  u ≠ n → v ≠ n →
  parallel_lengths (remove_node G n) u v = parallel_lengths G u v.
Proof.
  intros Hu Hv. unfold parallel_lengths. simpl.
  induction (edges G) as [|e es IH]; [done|].
  rewrite filter_cons. csimpl.
  destruct (decide (e.1.1 ≠ n ∧ e.1.2 ≠ n)) as [_|Hdrop]; csimpl.
  - by rewrite IH.
  - rewrite IH. destruct (decide (e.1.1 = u ∧ e.1.2 = v)) as [[E1 E2]|]; [|done].
    destruct Hdrop. split; congruence.
Qed.

Lemma has_edge_remove_node G n u v :
  has_edge (remove_node G n) u v = true ↔ has_edge G u v = true ∧ u ≠ n ∧ v ≠ n.
Proof.
  rewrite !has_edge_true, !has_node_remove_node. split.
  - intros [[? ?] [[? ?] Hp]]. rewrite parallel_lengths_remove_node in Hp by done. done.
  - intros [(? & ? & Hp) [? ?]]. rewrite parallel_lengths_remove_node by done. done.
Qed.

Lemma remove_nodes_cons G n ns :
  remove_nodes G (n :: ns) = remove_nodes (remove_node G n) ns.
Proof. done. Qed.

Lemma remove_nodes_app G ns1 ns2 :
  remove_nodes G (ns1 ++ ns2) = remove_nodes (remove_nodes G ns1) ns2.
Proof. apply fold_left_app. Qed.

Lemma has_node_remove_nodes G ns m :
  has_node (remove_nodes G ns) m = true ↔ has_node G m = true ∧ m ∉ ns.
Proof.
  revert G. induction ns as [|n ns IH]; intros G.
  - simpl. set_solver.
  - rewrite remove_nodes_cons, IH, has_node_remove_node. set_solver.
Qed.

Lemma parallel_lengths_remove_nodes G ns u v :
  u ∉ ns → v ∉ ns →
  parallel_lengths (remove_nodes G ns) u v = parallel_lengths G u v.
Proof.
  revert G. induction ns as [|n ns IH]; intros G Hu Hv; [done|].
  rewrite remove_nodes_cons, IH by set_solver.
  apply parallel_lengths_remove_node; set_solver.
Qed.

Lemma has_edge_remove_nodes G ns u v :
  has_edge (remove_nodes G ns) u v = true ↔
  has_edge G u v = true ∧ (u ∉ ns) ∧ (v ∉ ns).
Proof.
  revert G. induction ns as [|n ns IH]; intros G.
  - simpl. set_solver.
  - rewrite remove_nodes_cons, IH, has_edge_remove_node. set_solver.
Qed.

Lemma edge_weight_remove_nodes G ns u v :
  u ∉ ns → v ∉ ns → edge_weight (remove_nodes G ns) u v = edge_weight G u v.
Proof.
  intros. unfold edge_weight. by rewrite parallel_lengths_remove_nodes.
Qed.

Lemma is_walk_cons G u p : is_walk G (u :: p) → has_node G u = true.
Proof.
  destruct p as [|v p]; simpl; [done|].
  intros [He _]. by apply has_edge_true in He as (? & _).
Qed.

Lemma is_walk_nodes G p u : is_walk G p → u ∈ p → has_node G u = true.
Proof.
  induction p as [|v p IH]; [done|]. intros Hw Hin.
  apply elem_of_cons in Hin as [->|Hin]; [by eapply is_walk_cons|].
  destruct p as [|v' p]; [by apply elem_of_nil in Hin|].
  destruct Hw as [_ Hw]. by apply IH.
Qed.

Lemma is_walk_remove_nodes G ns p :
  is_walk (remove_nodes G ns) p ↔ is_walk G p ∧ ∀ u, u ∈ p → u ∉ ns.
Proof.
  induction p as [|u p IH]; [simpl; naive_solver|].
  destruct p as [|v p].
  - simpl. rewrite has_node_remove_nodes. set_solver.
  - change (is_walk ?g (u :: v :: p)) with (has_edge g u v = true ∧ is_walk g (v :: p)).
    rewrite IH, has_edge_remove_nodes. set_solver.
Qed.

Lemma steps_elem p u v : (u, v) ∈ steps p → u ∈ p ∧ v ∈ p.
Proof.
  induction p as [|a p IH]; [by intros ?%elem_of_nil|].
  destruct p as [|b p]; [by intros ?%elem_of_nil|].
  change (steps (a :: b :: p)) with ((a, b) :: steps (b :: p)).
  intros [Heq|Hin]%elem_of_cons.
  - inversion Heq; subst. set_solver.
  - apply IH in Hin. set_solver.
Qed.

(** Removing nodes that are not on a path leaves its length as it was. *)
Lemma path_length_remove_nodes G ns p :
  (∀ u, u ∈ p → u ∉ ns) →
  path_length (remove_nodes G ns) p = path_length G p.
Proof.
  intros Hp. unfold path_length. f_equal.
  apply map_ext_in. intros [u v] Hin%list_elem_of_In%steps_elem. simpl.
  apply edge_weight_remove_nodes; naive_solver.
Qed.


Lemma is_route_length G s t p : is_route G s t p → s ≠ t → (2 ≤ length p)%nat.
Proof.
  intros (Hw & Hh & Hl) Hne. destruct p as [|a [|b p]]; simpl in *; [done| |lia].
  congruence.
Qed.

Lemma is_route_remove_nodes G ns s t p :
  is_route (remove_nodes G ns) s t p → is_route G s t p.
Proof. intros (Hw & ? & ?). split; [|done]. by apply is_walk_remove_nodes in Hw as [? _]. Qed.
End GraphFacts.

(** ** The reference Path Finder meets the contract *)

Section ReferenceFacts.
Context {W : Type} {NW : Number W}.
Implicit Types (G : Graph W) (p q : list node) (u v s t : node).

Lemma successors_edge G u v : v ∈ successors G u ↔ has_edge G u v = true.
Proof.
  unfold successors. rewrite list_elem_of_filter. split; [naive_solver|].
  intros He. split; [done|].
  apply has_edge_true in He as (_ & Hv & _). by apply has_node_true.
Qed.

Lemma simple_paths_sound fuel G visited u t p :
  has_node G u = true →
  p ∈ simple_paths fuel G visited u t → is_route G u t p.
Proof.
  revert visited u p. induction fuel as [|fuel IH]; intros visited u p Hu; simpl.
  - destruct (decide (u = t)) as [->|]; [|by intros ?%elem_of_nil].
    intros ->%list_elem_of_singleton. by repeat split.
  - destruct (decide (u = t)) as [->|].
    { intros ->%list_elem_of_singleton. by repeat split. }
    intros (v & Hv & Hp)%list_elem_of_In%in_flat_map.
    apply list_elem_of_In, successors_edge in Hv.
    destruct (decide (v ∈ u :: visited)); [done|].
    apply list_elem_of_In, list_elem_of_fmap in Hp as (q & -> & Hq).
    apply IH in Hq as (Hw & Hh & Hl).
    + destruct q as [|v' q]; [done|]. simpl in Hh. injection Hh as ->.
      split; [by split|]. split; [done|]. by rewrite last_cons_cons.
    + by apply has_edge_true in Hv as (_ & ? & _).
Qed.

Lemma simple_paths_complete fuel G visited u t p :
  is_route G u t p → NoDup p → (∀ x, x ∈ p → x ∉ visited) →
  (length p ≤ S fuel)%nat →
  p ∈ simple_paths fuel G visited u t.
Proof.
  revert visited u p. induction fuel as [|fuel IH];
    intros visited u p (Hw & Hh & Hl) Hnd Hvis Hlen.
  - destruct p as [|a [|b p]]; simpl in *; [done| |lia].
    injection Hh as ->. injection Hl as ->. rewrite decide_True by done.
    by apply list_elem_of_singleton.
  - destruct p as [|a [|b p]]; [done| |].
    + simpl in *. injection Hh as ->. injection Hl as ->.
      rewrite decide_True by done. by apply list_elem_of_singleton.
    + simpl in Hh. injection Hh as ->. destruct Hw as [He Hw].
      apply NoDup_cons in Hnd as [Hu Hnd].
      simpl. rewrite decide_False.
      2:{ intros ->. apply Hu. apply last_Some_elem_of.
          by rewrite last_cons_cons in Hl. }
      apply list_elem_of_In, in_flat_map. exists b. split.
      { by apply list_elem_of_In, successors_edge. }
      rewrite decide_False.
      2:{ intros [->|Hb]%elem_of_cons; [apply Hu; left|]. eapply Hvis; [|done]. set_solver. }
      apply list_elem_of_In, list_elem_of_fmap. exists (b :: p). split; [done|].
      apply IH; [|done| |simpl in *; lia].
      * split; [done|]. split; [done|]. by rewrite last_cons_cons in Hl.
      * intros x Hx [->|Hxv]%elem_of_cons; [done|]. eapply Hvis; [|done]. set_solver.
Qed.

Lemma is_walk_suffix G p q : is_walk G (p ++ q) → q ≠ [] → is_walk G q.
Proof.
  induction p as [|a p IH]; [done|]. intros Hw Hq. apply IH; [|done].
  destruct p as [|b p]; simpl in *.
  - destruct q; [done|]. by destruct Hw.
  - by destruct Hw.
Qed.

(** A route can be cut down to one without a repeated node. *)
Lemma is_route_simple G s t p :
  is_route G s t p → ∃ q, is_route G s t q ∧ NoDup q.
Proof.
  revert s. induction p as [|a p IH]; intros s (Hw & Hh & Hl); [done|].
  simpl in Hh. injection Hh as ->.
  destruct p as [|b p].
  - exists [s]. split; [done|]. apply NoDup_singleton.
  - destruct Hw as [He Hw]. rewrite last_cons_cons in Hl.
    destruct (IH b) as (q & (Hqw & Hqh & Hql) & Hqd); [done|].
    destruct (decide (s ∈ q)) as [Hin|Hnin].
    + apply list_elem_of_split in Hin as (q1 & q2 & ->).
      exists (s :: q2). split.
      * split; [by eapply is_walk_suffix|]. split; [done|].
        by rewrite last_app_cons in Hql.
      * by apply NoDup_app in Hqd as (_ & _ & ?).
    + exists (s :: q). split; [|by apply NoDup_cons].
      destruct q as [|b' q]; [done|]. simpl in Hqh. injection Hqh as ->.
      split; [by split|]. split; [done|]. by rewrite last_cons_cons.
Qed.

Lemma shortest_of_elem G p ps : shortest_of G p ps ∈ p :: ps.
Proof.
  unfold shortest_of. revert p. induction ps as [|q ps IH]; intros p; simpl.
  - left.
  - destruct (num_ltb _ _); specialize (IH q) as IHq; specialize (IH p); set_solver.
Qed.

Lemma reference_astar_contract : path_finder_contract (reference_astar (W:=W)).
Proof.
  split.
  - intros G s t p. unfold reference_astar.
    destruct (negb (has_node G s) || negb (has_node G t)) eqn:Hn; [done|].
    apply orb_false_iff in Hn as [Hs%negb_false_iff _].
    destruct (simple_paths _ _ _ _ _) as [|p0 ps] eqn:Hps; [done|].
    intros [= <-]. apply (simple_paths_sound (length (nodes G)) G [] s t); [done|].
    rewrite Hps. apply shortest_of_elem.
  - intros G s t (p & Hp). unfold reference_astar.
    pose proof Hp as (Hw & Hh & Hl).
    rewrite (is_walk_nodes G p s), (is_walk_nodes G p t);
      [|done|by apply last_Some_elem_of|done|by apply head_Some_elem_of].
    simpl. apply is_route_simple in Hp as (q & Hq & Hnd).
    assert (q ∈ simple_paths (length (nodes G)) G [] s t) as Hin.
    { apply simple_paths_complete; [done|done|set_solver|].
      etrans; [|apply Nat.le_succ_diag_r].
      apply submseteq_length, NoDup_submseteq; [done|].
      intros x Hx. apply has_node_true. eapply is_walk_nodes; [apply Hq|done]. }
    destruct (simple_paths _ _ _ _ _); [by apply elem_of_nil in Hin|]. eauto.
  - intros G s t e. unfold reference_astar.
    destruct (negb (has_node G s) || negb (has_node G t)) eqn:Hn.
    + intros [= <-]. left. split; [done|].
      apply orb_true_iff in Hn as [?%negb_true_iff|?%negb_true_iff]; auto.
    + destruct (simple_paths _ _ _ _ _); [|done].
      intros [= <-]. right. split; [done|].
      by apply orb_false_iff in Hn as [?%negb_false_iff ?%negb_false_iff].
Qed.
End ReferenceFacts.

(** ** The reference generator meets its contract *)

Lemma rotation_contract : sampler_contract rotation.
Proof.
  intros g n. simpl. unfold rotate.
  rewrite Permutation_app_comm. by rewrite take_drop.
Qed.

(** ** Running the program *)

Section ProgramFacts.
Context {W R : Type} {NW : Number W}.
Variable astar_path : PathFinder W.
Variable permutation : Sampler R.
Implicit Types (σ : state W R) (G : Graph W) (routes : list (Route W)).

Lemma run_bind {A B} (m : M W R A) (k : A → M W R B) σ :
  (m ≫= k) σ =
  match m σ with
  | (Ok a, σ') => k a σ'
  | (Raise e, σ') => (Raise e, σ')
  end.
Proof. done. Qed.

Lemma preserves_refl σ : preserves σ σ.
Proof. by unfold preserves. Qed.

Lemma preserves_trans σ1 σ2 σ3 : preserves σ1 σ2 → preserves σ2 σ3 → preserves σ1 σ3.
Proof. unfold preserves. by etrans. Qed.

Lemma preserves_graph_at σ σ' g G :
  preserves σ σ' → graphs σ !! g = Some G → graphs σ' !! g = Some G.
Proof. unfold preserves. intros Hsub Hg. by eapply lookup_weaken. Qed.

Lemma graph_at_Some σ g G : graphs σ !! g = Some G → graph_at σ g = G.
Proof. unfold graph_at. by intros ->. Qed.

(** *** [interior] and the sample size *)

Lemma length_interior (route : list node) :
  length (interior route) = (length route - 2)%nat.
Proof.
  unfold interior. destruct route as [|a route]; [done|]. simpl.
  destruct route as [|b route] using rev_ind; [done|].
  rewrite removelast_last, length_app. simpl. lia.
Qed.


(** *** [np.random.choice] *)

Lemma omap_lookup_drawn (a : list node) (idx : list nat) :
  Forall (fun i => i < length a)%nat idx →
  Forall2 (fun i x => a !! i = Some x) idx (omap (fun i => a !! i) idx).
Proof.
  induction 1 as [|i idx Hi _ IH]; csimpl; [constructor|].
  apply lookup_lt_is_Some in Hi as [x Hx]. rewrite Hx. by constructor.
Qed.

Lemma choice_ok (a : list node) (size : Z) σ :
  sampler_contract permutation →
  (0 ≤ size ≤ Z.of_nat (length a))%Z →
  ∃ sel g',
    choice permutation a size σ = (Ok sel, mkState (graphs σ) g') ∧
    drawn a (Z.to_nat size) sel.
Proof.
  intros Hperm Hsize. unfold choice.
  assert (bool_decide (length a = 0%nat) && negb (bool_decide (size = 0%Z)) = false) as ->.
  { apply andb_false_iff.
    destruct (decide (size = 0%Z)) as [->|]; [by right|left].
    apply bool_decide_eq_false. lia. }
  rewrite !bool_decide_eq_false_2 by lia.
  specialize (Hperm (rng σ) (length a)).
  destruct (permutation (rng σ) (length a)) as [idx g'] eqn:Hrun. simpl in Hperm.
  eexists _, g'. split; [done|].
  exists (take (Z.to_nat size) idx). split; [|split].
  - eapply sublist_NoDup; [|apply sublist_take].
    rewrite Hperm. apply NoDup_seq.
  - rewrite length_take, Hperm, length_seq. lia.
  - apply omap_lookup_drawn, Forall_take.
    rewrite Hperm. apply Forall_forall. intros i Hi%elem_of_seq. lia.
Qed.

Lemma choice_negative (a : list node) (size : Z) σ :
  (size < 0)%Z → choice permutation a size σ = (Raise ValueError, σ).
Proof.
  intros Hsize. unfold choice.
  destruct (_ && _); [done|].
  destruct (bool_decide (Z.of_nat (length a) < size)%Z); [done|].
  by rewrite bool_decide_eq_true_2.
Qed.

(** Whatever it is given, [choice] returns or raises [ValueError], and
    touches no graph. *)
Lemma choice_outcome (a : list node) (size : Z) σ :
  (∃ sel g', choice permutation a size σ = (Ok sel, mkState (graphs σ) g')) ∨
  choice permutation a size σ = (Raise ValueError, σ).
Proof.
  unfold choice.
  destruct (_ && _); [by right|].
  destruct (bool_decide (Z.of_nat (length a) < size)%Z); [by right|].
  destruct (bool_decide (size < 0)%Z); [by right|].
  destruct (permutation _ _). left. eauto.
Qed.

(** *** The path search *)

Lemma search_run g s t σ :
  path_finder_contract astar_path →
  search astar_path g s t σ =
  (match astar_path (graph_at σ g) s t with
   | Ok p => Ok (p, path_length (graph_at σ g) p)
   | Raise e => Raise e
   end, σ).
Proof.
  intros Hpf. unfold search. rewrite run_bind. unfold nx_astar_path at 1.
  destruct (astar_path (graph_at σ g) s t) as [p|e] eqn:Hp; [|done].
  rewrite run_bind. unfold nx_astar_path_length, astar_path_length.
  apply (pf_sound _ Hpf) in Hp as Hroute. destruct Hroute as (Hw & Hh & Hl).
  rewrite (is_walk_nodes _ p s), (is_walk_nodes _ p t);
    [|done|by apply last_Some_elem_of|done|by apply head_Some_elem_of].
  simpl. by rewrite Hp.
Qed.

(** *** Lines 70-73, for one earlier route *)

Lemma deplete_ok tmp (r : Route W) σ G1 :
  sampler_contract permutation →
  graphs σ !! tmp = Some G1 →
  (2 ≤ length r.1)%nat →
  ∃ sel g',
    deplete permutation tmp r σ =
      (Ok tt, mkState (<[tmp := remove_nodes G1 sel]> (graphs σ)) g') ∧
    drawn (interior r.1) (3 `min` length (interior r.1)) sel.
Proof.
  intros Hperm Htmp Hlen. unfold deplete. rewrite run_bind.
  pose proof (length_interior r.1) as Hint.
  destruct (choice_ok (interior r.1) (Z.min 3 (interior_size r.1)) σ Hperm)
    as (sel & g' & -> & Hdrawn).
  { unfold interior_size. lia. }
  exists sel, g'. split.
  - unfold remove_nodes_from. simpl. by erewrite alter_alt_Some.
  - replace (3 `min` length (interior r.1))%nat
      with (Z.to_nat (Z.min 3 (interior_size r.1))); [done|].
    unfold interior_size. lia.
Qed.

Lemma deplete_short tmp (r : Route W) σ :
  (length r.1 < 2)%nat →
  deplete permutation tmp r σ = (Raise ValueError, σ).
Proof.
  intros Hlen. unfold deplete. rewrite run_bind, choice_negative; [done|].
  unfold interior_size. lia.
Qed.

Lemma choice_run (a : list node) (size : Z) σ :
  (0 ≤ size ≤ Z.of_nat (length a))%Z →
  ∃ sel g', choice permutation a size σ = (Ok sel, mkState (graphs σ) g').
Proof.
  intros Hsize.
  destruct (choice_outcome a size σ) as [?|Hraise]; [done|].
  exfalso. revert Hraise. unfold choice.
  assert (bool_decide (length a = 0%nat) && negb (bool_decide (size = 0%Z)) = false) as ->.
  { apply andb_false_iff.
    destruct (decide (size = 0%Z)) as [->|]; [by right|left].
    apply bool_decide_eq_false. lia. }
  rewrite !bool_decide_eq_false_2 by lia.
  by destruct (permutation _ _).
Qed.

(** A route of two nodes or more has its nodes removed from [tmp]; a
    shorter one makes the selection raise, and nothing is removed. *)
Lemma deplete_cases tmp (r : Route W) σ G1 :
  graphs σ !! tmp = Some G1 →
  ((2 ≤ length r.1)%nat ∧
   ∃ sel g', deplete permutation tmp r σ =
               (Ok tt, mkState (<[tmp := remove_nodes G1 sel]> (graphs σ)) g')) ∨
  ((length r.1 < 2)%nat ∧ deplete permutation tmp r σ = (Raise ValueError, σ)).
Proof.
  intros Htmp. destruct (decide (length r.1 < 2)%nat) as [Hshort|Hlong].
  { right. split; [done|]. by apply deplete_short. }
  left. split; [lia|]. unfold deplete. rewrite run_bind.
  pose proof (length_interior r.1) as Hint.
  destruct (choice_run (interior r.1) (Z.min 3 (interior_size r.1)) σ)
    as (sel & g' & ->).
  { unfold interior_size. lia. }
  exists sel, g'. unfold remove_nodes_from. simpl. by erewrite alter_alt_Some.
Qed.

Lemma deplete_all_ok tmp routes σ G1 :
  sampler_contract permutation →
  graphs σ !! tmp = Some G1 →
  Forall (fun r : Route W => 2 ≤ length r.1)%nat routes →
  ∃ sels g',
    for_each routes (deplete permutation tmp) σ =
      (Ok tt, mkState (<[tmp := remove_nodes G1 (concat sels)]> (graphs σ)) g') ∧
    Forall2 (fun (r : Route W) sel =>
               drawn (interior r.1) (3 `min` length (interior r.1)) sel)
            routes sels.
Proof.
  intros Hperm Htmp Hall. revert σ G1 Htmp.
  induction Hall as [|r routes Hr _ IH]; intros σ G1 Htmp.
  - exists [], (rng σ). split; [|constructor]. simpl.
    rewrite insert_id by done. by destruct σ.
  - destruct (deplete_ok tmp r σ G1 Hperm Htmp Hr) as (sel & g1 & Hrun & Hsel).
    destruct (IH (mkState (<[tmp := remove_nodes G1 sel]> (graphs σ)) g1)
                 (remove_nodes G1 sel)) as (sels & g' & Hrest & Hsels).
    { simpl. apply lookup_insert_eq. }
    exists (sel :: sels), g'. split; [|by constructor].
    simpl. rewrite run_bind, Hrun, Hrest. simpl.
    by rewrite insert_insert_eq, remove_nodes_app.
Qed.

Lemma deplete_all_cases tmp routes σ G1 :
  graphs σ !! tmp = Some G1 →
  ∃ o ns g',
    for_each routes (deplete permutation tmp) σ =
      (o, mkState (<[tmp := remove_nodes G1 ns]> (graphs σ)) g') ∧
    ((o = Ok tt ∧ Forall (fun r : Route W => 2 ≤ length r.1)%nat routes) ∨
     (o = Raise ValueError ∧ Exists (fun r : Route W => length r.1 < 2)%nat routes)).
Proof.
  revert σ G1. induction routes as [|r routes IH]; intros σ G1 Htmp.
  - exists (Ok tt), [], (rng σ). split; [|left; by split].
    simpl. rewrite insert_id by done. by destruct σ.
  - simpl. rewrite run_bind.
    destruct (deplete_cases tmp r σ G1 Htmp) as [[Hr (sel & g1 & ->)]|[Hr ->]].
    + destruct (IH (mkState (<[tmp := remove_nodes G1 sel]> (graphs σ)) g1)
                   (remove_nodes G1 sel)) as (o & ns & g' & -> & Ho).
      { simpl. apply lookup_insert_eq. }
      exists o, (sel ++ ns), g'. simpl. split.
      * by rewrite insert_insert_eq, remove_nodes_app.
      * destruct Ho as [[-> ?]|[-> ?]]; [left|right]; split; try done.
        -- by constructor.
        -- by apply Exists_cons_tl.
    + exists (Raise ValueError), [], (rng σ). split.
      * simpl. rewrite insert_id by done. by destruct σ.
      * right. split; [done|]. by apply Exists_cons_hd.
Qed.

(** *** Lines 67-73 *)

Lemma fresh_ref σ : graphs σ !! fresh (dom (graphs σ)) = None.
Proof. apply not_elem_of_dom, is_fresh. Qed.

Lemma copy_run g σ :
  copy g σ =
  (Ok (fresh (dom (graphs σ))),
   mkState (<[fresh (dom (graphs σ)) := graph_at σ g]> (graphs σ)) (rng σ)).
Proof. done. Qed.

(** The copy is a new object; the removals change that object only. *)
Lemma perturbed_copy_cases g routes σ :
  ∃ o ns g',
    perturbed_copy permutation g routes σ =
      (o, mkState (<[fresh (dom (graphs σ)) := remove_nodes (graph_at σ g) ns]> (graphs σ)) g') ∧
    ((o = Ok (fresh (dom (graphs σ))) ∧
      Forall (fun r : Route W => 2 ≤ length r.1)%nat routes) ∨
     (o = Raise ValueError ∧
      Exists (fun r : Route W => length r.1 < 2)%nat routes)).
Proof.
  unfold perturbed_copy. rewrite run_bind, copy_run, run_bind.
  set (tmp := fresh (dom (graphs σ))).
  destruct (deplete_all_cases tmp routes
              (mkState (<[tmp := graph_at σ g]> (graphs σ)) (rng σ)) (graph_at σ g))
    as (o & ns & g' & -> & Ho).
  { simpl. apply lookup_insert_eq. }
  simpl. rewrite insert_insert_eq.
  destruct Ho as [[-> ?]|[-> ?]]; eexists _, ns, g'; (split; [done|]); [left|right]; done.
Qed.

Lemma preserves_insert_fresh σ G1 (g' : R) :
  preserves σ (mkState (<[fresh (dom (graphs σ)) := G1]> (graphs σ)) g').
Proof. unfold preserves. simpl. apply insert_subseteq, fresh_ref. Qed.

Lemma graph_at_insert_fresh σ G1 (g' : R) :
  graph_at (mkState (<[fresh (dom (graphs σ)) := G1]> (graphs σ)) g')
           (fresh (dom (graphs σ))) = G1.
Proof. unfold graph_at. simpl. by rewrite lookup_insert_eq. Qed.

(** *** One pass of the loop *)

Lemma search_state g s t σ : (search astar_path g s t σ).2 = σ.
Proof.
  unfold search. rewrite run_bind. unfold nx_astar_path at 1.
  destruct (astar_path _ _ _); [|done].
  rewrite run_bind. unfold nx_astar_path_length.
  by destruct (astar_path_length _ _ _ _).
Qed.

Lemma iteration_state g s t i routes σ :
  (iteration astar_path permutation g s t i routes σ).2 =
  (attempt astar_path permutation g s t i routes σ).2.
Proof.
  unfold iteration, try_except. rewrite run_bind.
  destruct (attempt _ _ _ _ _ _ _ _) as [[r|e] σ']; [done|].
  by destruct (is_path_error e).
Qed.

Lemma attempt_preserves g s t i routes σ :
  preserves σ (attempt astar_path permutation g s t i routes σ).2.
Proof.
  unfold attempt. destruct (i =? 0)%nat.
  - rewrite search_state. apply preserves_refl.
  - rewrite run_bind.
    destruct (perturbed_copy_cases g routes σ) as (o & ns & g' & -> & [[-> _]|[-> _]]).
    + rewrite search_state. apply preserves_insert_fresh.
    + apply preserves_insert_fresh.
Qed.

Lemma iteration_preserves g s t i routes σ :
  preserves σ (iteration astar_path permutation g s t i routes σ).2.
Proof. rewrite iteration_state. apply attempt_preserves. Qed.

Lemma for_range_preserves g s t indices routes σ :
  preserves σ (for_range astar_path permutation g s t indices routes σ).2.
Proof.
  revert routes σ. induction indices as [|i indices IH]; intros routes σ.
  - apply preserves_refl.
  - simpl. rewrite run_bind.
    pose proof (iteration_preserves g s t i routes σ) as Hit.
    destruct (iteration _ _ _ _ _ _ _ _) as [[routes'|e] σ1]; [|done].
    eapply preserves_trans; [done|]. apply IH.
Qed.

(** What one pass does, by cases: the search ran on [G] less some nodes and
    its route was appended; or it ran and failed, and the list is as it
    was; or the selection raised before any search. *)
Lemma iteration_cases g s t i routes σ G :
  path_finder_contract astar_path →
  graphs σ !! g = Some G →
  ∃ ns σ',
    preserves σ σ' ∧ (i = 0%nat → ns = [] ∧ σ' = σ) ∧
    ((∃ p, astar_path (remove_nodes G ns) s t = Ok p ∧
           iteration astar_path permutation g s t i routes σ =
             (Ok (routes ++ [(p, path_length (remove_nodes G ns) p)]), σ')) ∨
     (∃ e, astar_path (remove_nodes G ns) s t = Raise e ∧
           iteration astar_path permutation g s t i routes σ = (Ok routes, σ')) ∨
     (i ≠ 0%nat ∧ Exists (fun r : Route W => length r.1 < 2)%nat routes ∧
      iteration astar_path permutation g s t i routes σ = (Raise ValueError, σ'))) ∧
    (i ≠ 0%nat →
     (Forall (fun r : Route W => 2 ≤ length r.1)%nat routes ∨
      (iteration astar_path permutation g s t i routes σ).1 = Raise ValueError)).
Proof.
  intros Hpf Hg. unfold iteration, try_except, attempt. rewrite run_bind.
  assert (∀ G' e, astar_path G' s t = Raise e → is_path_error e = true) as Hcaught.
  { intros G' e He. by apply (pf_raises _ Hpf) in He as [[-> _]|[-> _]]. }
  destruct (i =? 0)%nat eqn:Hi.
  - apply Nat.eqb_eq in Hi as ->. exists [], σ.
    split; [apply preserves_refl|]. split; [done|]. split; [|done].
    rewrite search_run, (graph_at_Some σ g G) by done. simpl.
    destruct (astar_path G s t) as [p|e] eqn:Hp.
    + left. by exists p.
    + right; left. exists e. by rewrite (Hcaught G e Hp).
  - apply Nat.eqb_neq in Hi. rewrite run_bind.
    destruct (perturbed_copy_cases g routes σ) as (o & ns & g' & -> & Ho).
    rewrite (graph_at_Some σ g G) by done.
    exists ns, (mkState (<[fresh (dom (graphs σ)) := remove_nodes G ns]> (graphs σ)) g').
    split; [apply preserves_insert_fresh|]. split; [done|].
    destruct Ho as [[-> Hlong]|[-> Hshort]].
    + rewrite search_run, graph_at_insert_fresh by done. split; [|by left].
      destruct (astar_path (remove_nodes G ns) s t) as [p|e] eqn:Hp.
      * left. by exists p.
      * right; left. exists e. by rewrite (Hcaught _ e Hp).
    + split; [|by right]. by right; right.
Qed.

Lemma for_range_cons g s t i rest routes σ :
  for_range astar_path permutation g s t (i :: rest) routes σ =
  match iteration astar_path permutation g s t i routes σ with
  | (Ok routes', σ') => for_range astar_path permutation g s t rest routes' σ'
  | (Raise e, σ') => (Raise e, σ')
  end.
Proof. done. Qed.

Lemma long_not_short routes :
  Forall (fun r : Route W => 2 ≤ length r.1)%nat routes →
  Exists (fun r : Route W => length r.1 < 2)%nat routes → False.
Proof.
  intros Hlong Hshort. apply Exists_exists in Hshort as (r & Hr & Hlt).
  eapply Forall_forall in Hlong; [|done]. lia.
Qed.

(** A route of fewer than two nodes in the list makes every later pass
    raise [ValueError], which the handler does not catch. *)
Lemma iteration_short g s t i routes σ :
  i ≠ 0%nat →
  Exists (fun r : Route W => length r.1 < 2)%nat routes →
  ∃ σ', iteration astar_path permutation g s t i routes σ = (Raise ValueError, σ').
Proof.
  intros Hi Hshort. unfold iteration, try_except, attempt.
  apply Nat.eqb_neq in Hi as ->. rewrite !run_bind.
  destruct (perturbed_copy_cases g routes σ) as (o & ns & g' & -> & [[_ Hlong]|[-> _]]).
  - destruct (long_not_short routes Hlong Hshort).
  - eauto.
Qed.

Lemma for_range_short g s t i rest routes σ :
  i ≠ 0%nat →
  Exists (fun r : Route W => length r.1 < 2)%nat routes →
  ∃ σ', for_range astar_path permutation g s t (i :: rest) routes σ =
          (Raise ValueError, σ').
Proof.
  intros Hi Hshort. simpl. rewrite run_bind.
  destruct (iteration_short g s t i routes σ Hi Hshort) as (σ' & ->). eauto.
Qed.

(** *** The whole loop *)

Lemma computed_on_route G s t ns (r : Route W) :
  path_finder_contract astar_path →
  computed_on astar_path G s t ns r →
  is_route (remove_nodes G ns) s t r.1.
Proof. intros Hpf [Hp _]. by apply (pf_sound _ Hpf). Qed.

Lemma for_range_computed g s t indices routes σ G routes' σ' :
  path_finder_contract astar_path →
  graphs σ !! g = Some G →
  Forall (fun r => ∃ ns, computed_on astar_path G s t ns r) routes →
  for_range astar_path permutation g s t indices routes σ = (Ok routes', σ') →
  Forall (fun r => ∃ ns, computed_on astar_path G s t ns r) routes'.
Proof.
  intros Hpf. revert routes σ.
  induction indices as [|i indices IH]; intros routes σ Hg Hroutes; simpl.
  - by intros [= <- <-].
  - rewrite run_bind.
    destruct (iteration_cases g s t i routes σ G Hpf Hg)
      as (ns & σ1 & Hpres & _ & [(p & Hp & ->)|[(e & He & ->)|(_ & _ & ->)]] & _);
      [| |done].
    + apply IH; [by eapply preserves_graph_at|].
      apply Forall_app. split; [done|]. constructor; [|constructor].
      exists ns. by split.
    + apply IH; [by eapply preserves_graph_at|done].
Qed.

Lemma for_range_total g s t indices routes σ G :
  path_finder_contract astar_path →
  graphs σ !! g = Some G →
  s ≠ t →
  Forall (fun r => ∃ ns, computed_on astar_path G s t ns r) routes →
  ∃ routes' σ',
    for_range astar_path permutation g s t indices routes σ = (Ok routes', σ') ∧
    (length routes ≤ length routes' ≤ length routes + length indices)%nat ∧
    (reachable G s t → head indices = Some 0%nat →
     (length routes < length routes')%nat).
Proof.
  intros Hpf Hg Hst. revert routes σ Hg.
  induction indices as [|i indices IH]; intros routes σ Hg Hroutes; simpl.
  - exists routes, σ. split; [done|]. split; [lia|done].
  - rewrite run_bind.
    destruct (iteration_cases g s t i routes σ G Hpf Hg)
      as (ns & σ1 & Hpres & Hi0 & [(p & Hp & ->)|[(e & He & ->)|(_ & Hshort & _)]] & _).
    + destruct (IH (routes ++ [(p, path_length (remove_nodes G ns) p)]) σ1)
        as (routes' & σ' & -> & Hlen & _).
      { by eapply preserves_graph_at. }
      { apply Forall_app. split; [done|]. constructor; [|constructor].
        exists ns. by split. }
      exists routes', σ'. split; [done|].
      rewrite length_app in Hlen. simpl in Hlen. split; lia.
    + destruct (IH routes σ1) as (routes' & σ' & -> & Hlen & _);
        [by eapply preserves_graph_at|done|].
      exists routes', σ'. split; [done|]. split; [lia|].
      intros Hreach [= ->]. destruct Hi0 as [-> _]; [done|].
      apply (pf_complete _ Hpf) in Hreach as (p & Hp). simpl in He. congruence.
    + exfalso. apply Exists_exists in Hshort as (r & Hr & Hlt).
      eapply Forall_forall in Hroutes as (ns' & Hc); [|done].
      apply computed_on_route, is_route_remove_nodes in Hc; [|done].
      apply is_route_length in Hc; [lia|done].
Qed.

Lemma iteration_nil_rng g s t i σ :
  rng (iteration astar_path permutation g s t i [] σ).2 = rng σ.
Proof.
  rewrite iteration_state. unfold attempt. destruct (i =? 0)%nat.
  - by rewrite search_state.
  - rewrite run_bind. unfold perturbed_copy. rewrite run_bind, copy_run. simpl.
    by rewrite search_state.
Qed.

Lemma for_range_unreachable g s t indices σ G :
  path_finder_contract astar_path →
  graphs σ !! g = Some G →
  ¬ reachable G s t →
  ∃ σ',
    for_range astar_path permutation g s t indices [] σ = (Ok [], σ') ∧
    rng σ' = rng σ.
Proof.
  intros Hpf Hg Hno. revert σ Hg.
  induction indices as [|i indices IH]; intros σ Hg; simpl.
  - by exists σ.
  - rewrite run_bind. pose proof (iteration_nil_rng g s t i σ) as Hrng.
    destruct (iteration_cases g s t i [] σ G Hpf Hg)
      as (ns & σ1 & Hpres & _ & [(p & Hp & _)|[(e & He & Hrun)|(_ & Hshort & _)]] & _).
    + destruct Hno. exists p.
      eapply is_route_remove_nodes, (pf_sound _ Hpf), Hp.
    + rewrite Hrun in Hrng |- *. simpl in Hrng.
      destruct (IH σ1) as (σ' & -> & Hrng'); [by eapply preserves_graph_at|].
      exists σ'. split; [done|]. congruence.
    + by apply Exists_nil in Hshort.
Qed.
End ProgramFacts.

(** ** Ranking *)

Section RankingFacts.
Context {W : Type} {NW : Number W}.
Implicit Types (r x y : Route W) (routes : list (Route W)).

Lemma insert_by_length_perm x routes : insert_by_length x routes ≡ₚ x :: routes.
Proof.
  induction routes as [|y routes IH]; simpl; [done|].
  destruct (num_ltb x.2 y.2); [done|]. rewrite IH. apply Permutation_swap.
Qed.

Lemma sort_by_length_perm routes : sort_by_length routes ≡ₚ routes.
Proof.
  unfold sort_by_length.
  assert (∀ acc, fold_left (fun sorted x => insert_by_length x sorted) routes acc
                 ≡ₚ acc ++ routes) as Hgen; [|apply Hgen].
  induction routes as [|x routes IH]; intros acc; simpl.
  - by rewrite app_nil_r.
  - rewrite IH, insert_by_length_perm. simpl. apply Permutation_middle.
Qed.

Lemma insert_by_length_ascending `{!NumberOrder W} x routes :
  ascending routes → ascending (insert_by_length x routes).
Proof.
  unfold ascending. induction 1 as [|y routes Hsorted IH Hy]; simpl.
  - repeat constructor.
  - destruct (num_ltb x.2 y.2) eqn:Hxy.
    + constructor; [by constructor|]. constructor.
      * unfold not_longer. destruct (num_ltb y.2 x.2) eqn:Hyx; [|done].
        by rewrite <-(num_ltb_irrefl x.2), (num_ltb_trans _ _ _ Hxy Hyx).
      * eapply Forall_impl; [done|]. unfold not_longer. intros z Hzy.
        destruct (num_ltb z.2 x.2) eqn:Hzx; [|done].
        by rewrite <-Hzy, (num_ltb_trans _ _ _ Hzx Hxy).
    + constructor; [done|]. rewrite insert_by_length_perm. by constructor.
Qed.

Lemma sort_by_length_ascending `{!NumberOrder W} routes :
  ascending (sort_by_length routes).
Proof.
  unfold sort_by_length.
  assert (∀ acc, ascending acc →
            ascending (fold_left (fun sorted x => insert_by_length x sorted) routes acc))
    as Hgen; [|apply Hgen; constructor].
  induction routes as [|x routes IH]; intros acc Hacc; simpl; [done|].
  by apply IH, insert_by_length_ascending.
Qed.

(** *** The sort on lengths that [<] orders as a strict weak order *)

Lemma strict_weak_onb_spec (ks : list W) :
  strict_weak_onb ks = true →
  (∀ a, a ∈ ks → num_ltb a a = false) ∧
  (∀ a b c, a ∈ ks → b ∈ ks → c ∈ ks →
     num_ltb a b = true → num_ltb b c = true → num_ltb a c = true) ∧
  (∀ a b c, a ∈ ks → b ∈ ks → c ∈ ks →
     num_ltb a b = false → num_ltb b c = false → num_ltb a c = false).
Proof.
  unfold strict_weak_onb. intros [Hirr Hall]%andb_true_iff.
  apply Is_true_true, forallb_True in Hirr. apply Is_true_true, forallb_True in Hall.
  rewrite Forall_forall in Hirr. rewrite Forall_forall in Hall.
  assert (∀ a b c, a ∈ ks → b ∈ ks → c ∈ ks →
            implb (num_ltb a b && num_ltb b c) (num_ltb a c) &&
            implb (negb (num_ltb a b) && negb (num_ltb b c)) (negb (num_ltb a c)) = true)
    as Habc.
  { intros a b c Ha Hb Hc. apply Hall in Ha.
    apply forallb_True in Ha. rewrite Forall_forall in Ha. apply Ha in Hb.
    apply forallb_True in Hb. rewrite Forall_forall in Hb. apply Hb in Hc.
    by apply Is_true_true. }
  split; [|split].
  - intros a Ha. apply Hirr in Ha. by apply negb_true_iff, Is_true_true.
  - intros a b c Ha Hb Hc Hab Hbc.
    specialize (Habc a b c Ha Hb Hc). rewrite Hab, Hbc in Habc.
    by destruct (num_ltb a c).
  - intros a b c Ha Hb Hc Hab Hbc.
    specialize (Habc a b c Ha Hb Hc). rewrite Hab, Hbc in Habc.
    by destruct (num_ltb a c).
Qed.

Lemma insert_by_length_ascending_on (ks : list W) x routes :
  strict_weak_onb ks = true →
  x.2 ∈ ks → Forall (fun y => y.2 ∈ ks) routes →
  ascending routes → ascending (insert_by_length x routes).
Proof.
  intros (Hirr & Htrans & _)%strict_weak_onb_spec Hx Hks.
  unfold ascending. induction 1 as [|y routes Hsorted IH Hy]; simpl.
  - repeat constructor.
  - apply Forall_cons in Hks as [Hyk Hks]. destruct (num_ltb x.2 y.2) eqn:Hxy.
    + constructor; [by constructor|]. constructor.
      * unfold not_longer. destruct (num_ltb y.2 x.2) eqn:Hyx; [|done].
        by rewrite <-(Hirr x.2 Hx), (Htrans _ _ _ Hx Hyk Hx Hxy Hyx).
      * rewrite Forall_forall in Hks, Hy. apply Forall_forall. intros z Hz.
        unfold not_longer. destruct (num_ltb z.2 x.2) eqn:Hzx; [|done].
        rewrite <-(Hy z Hz). unfold not_longer.
        by rewrite (Htrans _ _ _ (Hks z Hz) Hx Hyk Hzx Hxy).
    + constructor; [by apply IH|]. rewrite insert_by_length_perm. by constructor.
Qed.

Lemma filter_none (P : Route W → Prop) `{!∀ y, Decision (P y)} routes :
  Forall (fun y => ¬ P y) routes → filter P routes = [].
Proof.
  induction 1 as [|y routes Hy _ IH]; [done|].
  by rewrite filter_cons, decide_False.
Qed.

Lemma insert_by_length_ties (ks : list W) (k : W) x routes :
  strict_weak_onb ks = true →
  k ∈ ks → x.2 ∈ ks → Forall (fun y => y.2 ∈ ks) routes →
  ascending routes →
  filter (fun y => tied k y = true) (insert_by_length x routes) =
  filter (fun y => tied k y = true) routes ++ filter (fun y => tied k y = true) [x].
Proof.
  intros (Hirr & _ & Hincomp)%strict_weak_onb_spec Hk Hx Hks.
  unfold ascending. induction 1 as [|y routes Hsorted IH Hy]; [done|].
  apply Forall_cons in Hks as [Hyk Hks]. cbn [insert_by_length].
  destruct (num_ltb x.2 y.2) eqn:Hxy.
  - rewrite (filter_cons _ x), (filter_cons _ x [] ), filter_nil.
    destruct (decide (tied k x = true)) as [Hkx|]; [|by rewrite app_nil_r].
    assert (filter (fun z => tied k z = true) (y :: routes) = []) as ->; [|done].
    apply filter_none, Forall_forall. intros z Hz Hkz.
    assert (z.2 ∈ ks ∧ num_ltb z.2 y.2 = false) as [Hzk Hzy].
    { apply elem_of_cons in Hz as [->|Hz]; [by split; [|apply Hirr]|].
      rewrite Forall_forall in Hks, Hy. split; [by apply Hks|by apply Hy]. }
    unfold tied in Hkx, Hkz.
    apply andb_true_iff in Hkx as [_ Hxk%negb_true_iff].
    apply andb_true_iff in Hkz as [Hkz%negb_true_iff _].
    pose proof (Hincomp _ _ _ Hx Hk Hzk Hxk Hkz) as Hxz.
    pose proof (Hincomp _ _ _ Hx Hzk Hyk Hxz Hzy). congruence.
  - rewrite !(filter_cons _ y), IH by done.
    by destruct (decide (tied k y = true)).
Qed.

Lemma sort_by_length_fold (ks : list W) routes acc :
  strict_weak_onb ks = true →
  Forall (fun y => y.2 ∈ ks) routes → Forall (fun y => y.2 ∈ ks) acc →
  ascending acc →
  ascending (fold_left (fun sorted x => insert_by_length x sorted) routes acc) ∧
  ∀ k, k ∈ ks →
    filter (fun y => tied k y = true)
           (fold_left (fun sorted x => insert_by_length x sorted) routes acc) =
    filter (fun y => tied k y = true) acc ++ filter (fun y => tied k y = true) routes.
Proof.
  intros Hswo Hks. revert acc.
  induction Hks as [|x routes Hx Hks IH]; intros acc Hacc Hasc; simpl.
  - split; [done|]. intros k _. by rewrite filter_nil, app_nil_r.
  - destruct (IH (insert_by_length x acc)) as [Hasc' Hties].
    { by rewrite insert_by_length_perm; constructor. }
    { by eapply insert_by_length_ascending_on. }
    split; [done|]. intros k Hk.
    rewrite Hties, (insert_by_length_ties ks), <-app_assoc by done.
    by rewrite <-filter_app.
Qed.

(** On such lengths the sorted list is in ascending order and keeps routes
    of equal length in their order. *)
Lemma sort_by_length_stable routes :
  strict_weak_onb routes.*2 = true →
  ascending (sort_by_length routes) ∧ keeps_ties routes (sort_by_length routes).
Proof.
  intros Hswo.
  assert (Forall (fun y : Route W => y.2 ∈ routes.*2) routes) as Hks.
  { apply Forall_forall. intros y Hy. by apply list_elem_of_fmap_2. }
  destruct (sort_by_length_fold routes.*2 routes [] Hswo Hks) as [Hasc Hties];
    [constructor|constructor|].
  split; [done|]. intros r Hr. apply Hties. by apply list_elem_of_fmap_2.
Qed.

(** There is one such arrangement only, so it is the one [list.sort] leaves. *)
Lemma stable_sort_unique (ks : list W) (l1 l2 : list (Route W)) :
  strict_weak_onb ks = true →
  Forall (fun y => y.2 ∈ ks) l1 →
  l1 ≡ₚ l2 → ascending l1 → ascending l2 →
  (∀ k, k ∈ ks → filter (fun y => tied k y = true) l1 = filter (fun y => tied k y = true) l2) →
  l1 = l2.
Proof.
  intros Hswo Hks. pose proof (strict_weak_onb_spec ks Hswo) as (Hirr & _ & _).
  revert l2. induction Hks as [|a l1 Ha Hks IH]; intros l2 Hperm Hasc1 Hasc2 Hties.
  - by apply Permutation_nil_l in Hperm.
  - destruct l2 as [|b l2]; [by apply Permutation_nil_r in Hperm|].
    apply StronglySorted_inv in Hasc1 as [Hasc1 Hmin1].
    apply StronglySorted_inv in Hasc2 as [Hasc2 Hmin2].
    rewrite Forall_forall in Hmin1, Hmin2.
    assert (b ∈ a :: l1) as Hb by (rewrite Hperm; left).
    assert (a ∈ b :: l2) as Ha' by (rewrite <-Hperm; left).
    assert (b.2 ∈ ks) as Hbk.
    { apply elem_of_cons in Hb as [->|Hb]; [done|].
      rewrite Forall_forall in Hks. by apply Hks. }
    assert (num_ltb b.2 a.2 = false) as Hba.
    { apply elem_of_cons in Hb as [->|Hb]; [by apply Hirr|by apply Hmin1]. }
    assert (num_ltb a.2 b.2 = false) as Hab.
    { apply elem_of_cons in Ha' as [->|Ha']; [by apply Hirr|by apply Hmin2]. }
    assert (a = b) as <-.
    { pose proof (Hties a.2 Ha) as Hfirst.
      rewrite !filter_cons in Hfirst.
      destruct (decide (tied a.2 a = true)) as [_|Hno];
        [|destruct Hno; unfold tied; by rewrite (Hirr a.2 Ha)].
      destruct (decide (tied a.2 b = true)) as [_|Hno];
        [|destruct Hno; unfold tied; by rewrite Hab, Hba].
      congruence. }
    f_equal. apply IH; [by eapply Permutation_cons_inv|done|done|].
    intros k Hk. specialize (Hties k Hk). rewrite !filter_cons in Hties.
    destruct (decide (tied k a = true)); congruence.
Qed.

Lemma sort_by_length_unique routes (sorted : list (Route W)) :
  strict_weak_onb routes.*2 = true →
  sorted ≡ₚ routes → ascending sorted → keeps_ties routes sorted →
  sorted = sort_by_length routes.
Proof.
  intros Hswo Hperm Hasc Hties.
  destruct (sort_by_length_stable routes Hswo) as [Hasc' Hties'].
  apply (stable_sort_unique routes.*2); [done| | |done|done|].
  - apply Forall_forall. intros y Hy. apply list_elem_of_fmap_2. by rewrite <-Hperm.
  - by rewrite sort_by_length_perm.
  - intros k (r & -> & Hr)%list_elem_of_fmap. by rewrite Hties, Hties'.
Qed.

(** The first route of the sorted list is the first of least length, the one
    Python's [min] picks among the lengths. *)
Lemma sort_by_length_head r0 routes :
  ∃ h rest, sort_by_length (r0 :: routes) = h :: rest ∧ h.2 = py_min r0.2 routes.*2.
Proof.
  unfold sort_by_length. cbn [fold_left insert_by_length].
  assert (∀ h acc, ∃ h' acc',
            fold_left (fun sorted x => insert_by_length x sorted) routes (h :: acc) = h' :: acc' ∧
            h'.2 = py_min h.2 routes.*2) as Hgen; [|apply Hgen].
  unfold py_min. induction routes as [|x routes IH]; intros h acc.
  - by exists h, acc.
  - cbn [fold_left insert_by_length fmap list_fmap].
    destruct (num_ltb x.2 h.2); apply IH.
Qed.

Lemma km_keeps_order_spec (ks : list W) :
  km_keeps_order ks = true →
  ∀ a b : W, a ∈ ks → b ∈ ks →
    num_ltb (distance_km a) (distance_km b) = num_ltb a b.
Proof.
  intros Hkeep. apply Is_true_true, forallb_True in Hkeep.
  rewrite Forall_forall in Hkeep. intros a b Ha Hb. apply Hkeep in Ha.
  apply forallb_True in Ha. rewrite Forall_forall in Ha. apply Ha in Hb.
  by apply Is_true_true, Bool.eqb_prop in Hb.
Qed.

(** [min] commutes with the division when it keeps the order of the numbers
    it is given. *)
Lemma py_min_km (k : W) (ks : list W) :
  km_keeps_order (k :: ks) = true →
  py_min (distance_km k) (distance_km <$> ks) = distance_km (py_min k ks).
Proof.
  intros Hkeep. pose proof (km_keeps_order_spec _ Hkeep) as Hltb. unfold py_min.
  assert (∀ (rest : list W) (m : W), m ∈ k :: ks → (∀ b : W, b ∈ rest → b ∈ k :: ks) →
            fold_left (fun a b : W => if num_ltb b a then b else a) (distance_km <$> rest)
                      (distance_km m) =
            distance_km (fold_left (fun a b : W => if num_ltb b a then b else a) rest m))
    as Hgen; [|apply Hgen; [left|by right]].
  induction rest as [|b rest IH]; intros m Hm Hsub; [done|].
  cbn [fold_left fmap list_fmap]. rewrite Hltb by (done || apply Hsub; left).
  destruct (num_ltb b m); apply IH; try done;
    try (apply Hsub; left); intros z Hz; apply Hsub; by right.
Qed.

Lemma tooltip_polyline i r :
  tooltip (polyline i r) =
  match i with
  | 0 => "Shortest Route"
  | 1 => "Alternative Route"
  | _ => "Longest Route"
  end%nat.
Proof. by destruct i as [|[|[|i]]]. Qed.

Lemma route_type_cases i :
  route_type i =
  match i with
  | 0 => "Shortest"
  | 1 => "Alternative"
  | _ => "Longest"
  end%nat.
Proof. by destruct i as [|[|i]]. Qed.

End RankingFacts.

(** ** The generator is the only source of variation *)

Section Determinism.
Context {W R1 R2 : Type} {NW : Number W}.
Variable astar_path : PathFinder W.
Variable perm1 : Sampler R1.
Variable perm2 : Sampler R2.
Variable rel : R1 → R2 → Prop.
Hypothesis Hdraws : same_draws perm1 perm2 rel.

Lemma same_run_ret {A} (a : A) :
  same_run rel (mret a : M W R1 A) (mret a : M W R2 A).
Proof. by intros σ1 σ2 Hσ. Qed.


Lemma same_run_bind {A B} (m1 : M W R1 A) (m2 : M W R2 A)
    (k1 : A → M W R1 B) (k2 : A → M W R2 B) :
  same_run rel m1 m2 → (∀ a, same_run rel (k1 a) (k2 a)) →
  same_run rel (m1 ≫= k1) (m2 ≫= k2).
Proof.
  intros Hm Hk σ1 σ2 Hσ. rewrite !run_bind.
  destruct (Hm σ1 σ2 Hσ) as [Ho Hσ'].
  destruct (m1 σ1) as [[a|e] σ1'], (m2 σ2) as [[a'|e'] σ2']; simplify_eq/=;
    [by apply Hk|done].
Qed.

Lemma same_run_try_except {A} (m1 h1 : M W R1 A) (m2 h2 : M W R2 A) handled :
  same_run rel m1 m2 → same_run rel h1 h2 →
  same_run rel (try_except m1 handled h1) (try_except m2 handled h2).
Proof.
  intros Hm Hh σ1 σ2 Hσ. unfold try_except.
  destruct (Hm σ1 σ2 Hσ) as [Ho Hσ'].
  destruct (m1 σ1) as [[a|e] σ1'], (m2 σ2) as [[a'|e'] σ2']; simplify_eq/=;
    [done|].
  destruct (handled e'); [by apply Hh|done].
Qed.

Lemma same_run_for_each {A} (xs : list A)
    (body1 : A → M W R1 unit) (body2 : A → M W R2 unit) :
  (∀ x, same_run rel (body1 x) (body2 x)) →
  same_run rel (for_each xs body1) (for_each xs body2).
Proof.
  intros Hbody. induction xs as [|x xs IH]; simpl.
  - apply same_run_ret.
  - apply same_run_bind; [done|]. by intros _.
Qed.

Lemma same_run_choice a size :
  same_run rel (choice (W:=W) perm1 a size) (choice perm2 a size).
Proof.
  intros σ1 σ2 [Hg Hr]. unfold choice.
  destruct (_ && _); [done|].
  destruct (bool_decide (Z.of_nat (length a) < size)%Z); [done|].
  destruct (bool_decide (size < 0)%Z); [done|].
  destruct (Hdraws _ _ (length a) Hr) as [Hidx Hr'].
  destruct (perm1 _ _), (perm2 _ _). simpl in *. by subst.
Qed.

Lemma same_run_copy g : same_run rel (copy (W:=W) (R:=R1) g) (copy (R:=R2) g).
Proof.
  intros σ1 σ2 [Hg Hr]. unfold copy, graph_at. simpl. rewrite Hg.
  split; [done|]. by split.
Qed.

Lemma same_run_remove_nodes_from g ns :
  same_run rel (remove_nodes_from (W:=W) (R:=R1) g ns) (remove_nodes_from (R:=R2) g ns).
Proof.
  intros σ1 σ2 [Hg Hr]. unfold remove_nodes_from. simpl. rewrite Hg.
  split; [done|]. by split.
Qed.

Lemma same_run_search g s t :
  same_run rel (search (R:=R1) astar_path g s t) (search (R:=R2) astar_path g s t).
Proof.
  unfold search. apply same_run_bind.
  { intros σ1 σ2 [Hg Hr]. unfold nx_astar_path, graph_at. simpl. by rewrite Hg. }
  intros route. apply same_run_bind; [|intros d; apply same_run_ret].
  intros σ1 σ2 [Hg Hr]. unfold nx_astar_path_length, graph_at. simpl. by rewrite Hg.
Qed.

Lemma same_run_perturbed_copy g (routes : list (Route W)) :
  same_run rel (perturbed_copy perm1 g routes) (perturbed_copy perm2 g routes).
Proof.
  unfold perturbed_copy. apply same_run_bind; [apply same_run_copy|].
  intros temp_G. apply same_run_bind; [|intros _; apply same_run_ret].
  apply same_run_for_each. intros prev. unfold deplete.
  apply same_run_bind; [apply same_run_choice|].
  intros ns. apply same_run_remove_nodes_from.
Qed.

Lemma same_run_iteration g s t i (routes : list (Route W)) :
  same_run rel (iteration astar_path perm1 g s t i routes)
               (iteration astar_path perm2 g s t i routes).
Proof.
  unfold iteration. apply same_run_try_except; [|apply same_run_ret].
  apply same_run_bind; [|intros r; apply same_run_ret].
  unfold attempt. destruct (i =? 0)%nat; [apply same_run_search|].
  apply same_run_bind; [apply same_run_perturbed_copy|].
  intros temp_G. apply same_run_search.
Qed.

Lemma same_run_for_range g s t indices (routes : list (Route W)) :
  same_run rel (for_range astar_path perm1 g s t indices routes)
               (for_range astar_path perm2 g s t indices routes).
Proof.
  revert routes. induction indices as [|i indices IH]; intros routes; simpl.
  - apply same_run_ret.
  - apply same_run_bind; [apply same_run_iteration|done].
Qed.
End Determinism.

(** ** The order of the rationals *)

#[export] Instance Q_number_order : NumberOrder Q.
Proof.
  split.
  - intros a. simpl. apply negb_false_iff, Qle_bool_iff, Qle_refl.
  - intros a b c. simpl. rewrite !negb_true_iff, <-!not_true_iff_false, !Qle_bool_iff.
    intros Hab Hbc Hca. apply Qnot_le_lt in Hab, Hbc.
    apply (Qlt_irrefl a). eapply Qlt_le_trans; [|done]. by eapply Qlt_trans.
Qed.

Lemma same_draws_eq {R : Type} (permutation : Sampler R) :
  same_draws permutation permutation eq.
Proof. by intros g1 g2 n ->. Qed.

(** * Results on the routes returned *)

Section Routes.
Context {W R : Type} {NW : Number W}.
Variable astar_path : PathFinder W.
Variable permutation : Sampler R.
Implicit Types (σ : state W R) (G : Graph W) (routes : list (Route W)).

Lemma one_node_graph_walk (p : list node) :
  is_walk (one_node_graph (W:=W)) p → length p = 1%nat.
Proof.
  destruct p as [|u [|v p]]; [done|done|].
  intros [He _]. by apply has_edge_true in He as (_ & _ & ?).
Qed.

(** With distinct endpoints joined by a path the call returns, and returns
    between one and [k] routes; each is the search's route on a snapshot
    of [G], a walk from start to end in that snapshot and in [G], with the
    length summed along it. *)
Theorem calculate_alternative_routes_distinct_endpoints g s t k σ G :
  path_finder_contract astar_path →
  graphs σ !! g = Some G →
  s ≠ t → reachable G s t → (1 ≤ k)%Z →
  ∃ routes σ',
    calculate_alternative_routes astar_path permutation g s t k σ = (Ok routes, σ') ∧
    (1 ≤ length routes ≤ Z.to_nat k)%nat ∧
    Forall (fun r => ∃ ns, computed_on astar_path G s t ns r ∧
                           is_route (remove_nodes G ns) s t r.1 ∧
                           is_route G s t r.1) routes.
Proof.
  intros Hpf Hg Hst Hreach Hk. unfold calculate_alternative_routes.
  destruct (for_range_total astar_path permutation g s t (seq 0 (Z.to_nat k)) [] σ G)
    as (routes & σ' & Hrun & Hlen & Hfirst); [done..|constructor|].
  exists routes, σ'. split; [done|]. split.
  - rewrite length_seq in Hlen. simpl in Hlen. split; [|lia].
    apply Hfirst; [done|]. destruct (Z.to_nat k) eqn:Hn; [lia|done].
  - eapply Forall_impl.
    { eapply for_range_computed; [done|done| |done]. constructor. }
    intros r (ns & Hc). exists ns. split; [done|].
    pose proof (computed_on_route astar_path G s t ns r Hpf Hc) as Hroute.
    split; [done|]. by eapply is_route_remove_nodes.
Qed.

(** What a pass does once its search is about to run on the object [temp_G]. *)
Lemma iteration_of_search g s t i routes σ temp_G σ' S :
  path_finder_contract astar_path →
  attempt astar_path permutation g s t i routes σ = search astar_path temp_G s t σ' →
  graphs σ' !! temp_G = Some S →
  iteration astar_path permutation g s t i routes σ =
  match astar_path S s t with
  | Ok p => (Ok (routes ++ [(p, path_length S p)]), σ')
  | Raise e => (Ok routes, σ')
  end.
Proof.
  intros Hpf Hattempt HS. unfold iteration, try_except.
  rewrite run_bind, Hattempt, search_run, (graph_at_Some σ' temp_G S) by done.
  destruct (astar_path S s t) as [p|e] eqn:Hp; [done|].
  by apply (pf_raises _ Hpf) in Hp as [[-> _]|[-> _]].
Qed.

(** A pass whose search fails is skipped.  The search of pass [i] runs on
    the object [temp_G], which holds a snapshot [S] of [G]: [G] itself in
    pass 0, and in a later pass the copy made for it, [G] less the nodes
    removed (every earlier route having two nodes or more, so that the
    selection does not raise).  Under the Path Finder contract the search
    raises [NodeNotFound] when an endpoint is missing from [S],
    [NetworkXNoPath] when both are there and no route joins them, and
    nothing else.  Either error is caught: the pass appends nothing and the
    loop goes on with the next index.  A search that succeeds appends its
    route with the length summed in [S]. *)
Theorem failed_search_is_skipped g s t i rest routes σ G :
  path_finder_contract astar_path →
  graphs σ !! g = Some G →
  (i = 0%nat ∨ Forall (fun r : Route W => 2 ≤ length r.1)%nat routes) →
  ∃ ns temp_G σ',
    (i = 0%nat → ns = [] ∧ temp_G = g ∧ σ' = σ) ∧
    (i ≠ 0%nat → perturbed_copy permutation g routes σ = (Ok temp_G, σ')) ∧
    attempt astar_path permutation g s t i routes σ = search astar_path temp_G s t σ' ∧
    graphs σ' !! temp_G = Some (remove_nodes G ns) ∧
    (has_node (remove_nodes G ns) s = false ∨ has_node (remove_nodes G ns) t = false →
     astar_path (remove_nodes G ns) s t = Raise NodeNotFound) ∧
    (has_node (remove_nodes G ns) s = true → has_node (remove_nodes G ns) t = true →
     ¬ reachable (remove_nodes G ns) s t →
     astar_path (remove_nodes G ns) s t = Raise NetworkXNoPath) ∧
    (∀ e, astar_path (remove_nodes G ns) s t = Raise e →
       (e = NetworkXNoPath ∨ e = NodeNotFound) ∧
       iteration astar_path permutation g s t i routes σ = (Ok routes, σ') ∧
       for_range astar_path permutation g s t (i :: rest) routes σ =
         for_range astar_path permutation g s t rest routes σ') ∧
    (∀ p, astar_path (remove_nodes G ns) s t = Ok p →
       iteration astar_path permutation g s t i routes σ =
         (Ok (routes ++ [(p, path_length (remove_nodes G ns) p)]), σ')).
Proof.
  intros Hpf Hg Hlong.
  assert (∃ ns temp_G σ',
            (i = 0%nat → ns = [] ∧ temp_G = g ∧ σ' = σ) ∧
            (i ≠ 0%nat → perturbed_copy permutation g routes σ = (Ok temp_G, σ')) ∧
            attempt astar_path permutation g s t i routes σ =
              search astar_path temp_G s t σ' ∧
            graphs σ' !! temp_G = Some (remove_nodes G ns))
    as (ns & temp_G & σ' & Hi0 & Hcopy & Hattempt & HS).
  { unfold attempt. destruct (i =? 0)%nat eqn:Hi.
    - apply Nat.eqb_eq in Hi. by exists [], g, σ.
    - apply Nat.eqb_neq in Hi. destruct Hlong as [->|Hlong]; [done|].
      destruct (perturbed_copy_cases permutation g routes σ)
        as (o & ns & g' & Hrun & [[-> _]|[_ Hshort]]);
        [|by destruct (long_not_short routes Hlong Hshort)].
      rewrite (graph_at_Some σ g G) in Hrun by done.
      exists ns, (fresh (dom (graphs σ))),
        (mkState (<[fresh (dom (graphs σ)) := remove_nodes G ns]> (graphs σ)) g').
      split; [done|]. split; [done|]. split; [by rewrite run_bind, Hrun|].
      apply lookup_insert_eq. }
  exists ns, temp_G, σ'. split; [done|]. split; [done|]. split; [done|]. split; [done|].
  pose proof (iteration_of_search g s t i routes σ temp_G σ' _ Hpf Hattempt HS) as Hrun.
  assert (∀ p, astar_path (remove_nodes G ns) s t = Ok p →
            has_node (remove_nodes G ns) s = true ∧ has_node (remove_nodes G ns) t = true ∧
            reachable (remove_nodes G ns) s t) as Hfound.
  { intros p Hp. apply (pf_sound _ Hpf) in Hp as Hroute.
    destruct Hroute as (Hwalk & Hhead & Hlast).
    split; [|split].
    - eapply is_walk_nodes; [done|]. by apply head_Some_elem_of.
    - eapply is_walk_nodes; [done|]. by apply last_Some_elem_of.
    - by exists p. }
  split; [|split; [|split]].
  - intros Hmissing. destruct (astar_path (remove_nodes G ns) s t) as [p|e] eqn:Hp.
    + destruct (Hfound p eq_refl) as (Hs & Ht & _).
      destruct Hmissing; congruence.
    + apply (pf_raises _ Hpf) in Hp as [[-> _]|(_ & Hs & Ht)]; [done|].
      destruct Hmissing; congruence.
  - intros Hs Ht Hno. destruct (astar_path (remove_nodes G ns) s t) as [p|e] eqn:Hp.
    + by destruct (Hfound p eq_refl) as (_ & _ & Hreach).
    + apply (pf_raises _ Hpf) in Hp as [(_ & [Hs'|Ht'])|[-> _]]; [congruence..|done].
  - intros e He. rewrite He in Hrun. split; [|split; [done|]].
    + apply (pf_raises _ Hpf) in He as [[-> _]|[-> _]]; [by right|by left].
    + by rewrite for_range_cons, Hrun.
  - intros p Hp. by rewrite Hp in Hrun.
Qed.

(** Lines 67-75 when every earlier route has two nodes or more: the search
    runs on a new object, the copy of [G] less, for each earlier route, a
    draw without replacement of min(3, number of interior nodes) of its
    interior nodes. *)
Theorem alternative_search_graph g s t i routes σ G :
  sampler_contract permutation →
  graphs σ !! g = Some G →
  i ≠ 0%nat →
  Forall (fun r : Route W => 2 ≤ length r.1)%nat routes →
  ∃ sels g',
    let temp_G := fresh (dom (graphs σ)) in
    let σ' := mkState (<[temp_G := remove_nodes G (concat sels)]> (graphs σ)) g' in
    graphs σ !! temp_G = None ∧
    perturbed_copy permutation g routes σ = (Ok temp_G, σ') ∧
    attempt astar_path permutation g s t i routes σ = search astar_path temp_G s t σ' ∧
    Forall2 (fun (r : Route W) sel =>
               drawn (interior r.1) (3 `min` length (interior r.1)) sel)
            routes sels.
Proof.
  intros Hperm Hg Hi Hlong.
  destruct (deplete_all_ok permutation (fresh (dom (graphs σ))) routes
              (mkState (<[fresh (dom (graphs σ)) := G]> (graphs σ)) (rng σ)) G)
    as (sels & g' & Hrun & Hsels); [done|apply lookup_insert_eq|done|].
  exists sels, g'. simpl. split; [apply fresh_ref|].
  assert (perturbed_copy permutation g routes σ =
          (Ok (fresh (dom (graphs σ))),
           mkState (<[fresh (dom (graphs σ)) := remove_nodes G (concat sels)]> (graphs σ)) g'))
    as Hcopy.
  { unfold perturbed_copy.
    rewrite run_bind, copy_run, (graph_at_Some σ g G), run_bind, Hrun by done.
    simpl. by rewrite insert_insert_eq. }
  split; [done|]. split; [|done].
  unfold attempt. apply Nat.eqb_neq in Hi as ->. by rewrite run_bind, Hcopy.
Qed.
End Routes.

Lemma scenario_reachable : reachable scenario_graph 1%Z 5%Z.
Proof.
  exists [1; 2; 3; 4; 5]%Z.
  apply (pf_sound _ reference_astar_contract). vm_compute. reflexivity.
Qed.

Lemma calculate_alternative_routes_distinct_endpoints_scenario :
  ∃ routes σ',
    calculate_alternative_routes reference_astar rotation 0%nat 1%Z 5%Z 3%Z
      (initial scenario_graph) = (Ok routes, σ') ∧
    (1 ≤ length routes ≤ Z.to_nat 3)%nat ∧
    Forall (fun r : Route float =>
              ∃ ns, computed_on reference_astar scenario_graph 1%Z 5%Z ns r ∧
                    is_route (remove_nodes scenario_graph ns) 1%Z 5%Z r.1 ∧
                    is_route scenario_graph 1%Z 5%Z r.1) routes.
Proof.
  apply (calculate_alternative_routes_distinct_endpoints reference_astar rotation
           0%nat 1%Z 5%Z 3%Z (initial scenario_graph) scenario_graph).
  - apply reference_astar_contract.
  - reflexivity.
  - discriminate.
  - apply scenario_reachable.
  - lia.
Defined.

(** On the single road 1-2-3 the second pass removes node 2, the only
    interior node of the route found, and its search raises
    [NetworkXNoPath]; a search for a node that is not in the graph raises
    [NodeNotFound].  Both passes are skipped. *)
Lemma failed_search_is_skipped_single_road :
  (∃ ns temp_G σ',
     (1%nat = 0%nat → ns = [] ∧ temp_G = 0%nat ∧ σ' = initial single_road) ∧
     (1%nat ≠ 0%nat →
      perturbed_copy rotation 0%nat [([1; 2; 3]%Z, 200%float)] (initial single_road) =
        (Ok temp_G, σ')) ∧
     attempt reference_astar rotation 0%nat 1%Z 3%Z 1%nat
       [([1; 2; 3]%Z, 200%float)] (initial single_road) =
       search reference_astar temp_G 1%Z 3%Z σ' ∧
     graphs σ' !! temp_G = Some (remove_nodes single_road ns) ∧
     (has_node (remove_nodes single_road ns) 1%Z = false ∨
      has_node (remove_nodes single_road ns) 3%Z = false →
      reference_astar (remove_nodes single_road ns) 1%Z 3%Z = Raise NodeNotFound) ∧
     (has_node (remove_nodes single_road ns) 1%Z = true →
      has_node (remove_nodes single_road ns) 3%Z = true →
      ¬ reachable (remove_nodes single_road ns) 1%Z 3%Z →
      reference_astar (remove_nodes single_road ns) 1%Z 3%Z = Raise NetworkXNoPath) ∧
     (∀ e, reference_astar (remove_nodes single_road ns) 1%Z 3%Z = Raise e →
        (e = NetworkXNoPath ∨ e = NodeNotFound) ∧
        iteration reference_astar rotation 0%nat 1%Z 3%Z 1%nat
          [([1; 2; 3]%Z, 200%float)] (initial single_road) =
          (Ok [([1; 2; 3]%Z, 200%float)], σ') ∧
        for_range reference_astar rotation 0%nat 1%Z 3%Z [1; 2]%nat
          [([1; 2; 3]%Z, 200%float)] (initial single_road) =
          for_range reference_astar rotation 0%nat 1%Z 3%Z [2%nat]
            [([1; 2; 3]%Z, 200%float)] σ') ∧
     (∀ p, reference_astar (remove_nodes single_road ns) 1%Z 3%Z = Ok p →
        iteration reference_astar rotation 0%nat 1%Z 3%Z 1%nat
          [([1; 2; 3]%Z, 200%float)] (initial single_road) =
          (Ok ([([1; 2; 3]%Z, 200%float)] ++
               [(p, path_length (remove_nodes single_road ns) p)]), σ'))) ∧
  reference_astar single_road 1%Z 3%Z = Ok [1; 2; 3]%Z ∧
  (perturbed_copy rotation 0%nat [([1; 2; 3]%Z, 200%float)] (initial single_road)).1 =
    Ok 1%nat ∧
  graphs (perturbed_copy rotation 0%nat [([1; 2; 3]%Z, 200%float)]
            (initial single_road)).2 !! 1%nat = Some (remove_nodes single_road [2%Z]) ∧
  reference_astar (remove_nodes single_road [2%Z]) 1%Z 3%Z = Raise NetworkXNoPath ∧
  (iteration reference_astar rotation 0%nat 1%Z 3%Z 1%nat
     [([1; 2; 3]%Z, 200%float)] (initial single_road)).1 = Ok [([1; 2; 3]%Z, 200%float)] ∧
  (calculate_alternative_routes reference_astar rotation 0%nat 1%Z 3%Z 3%Z
     (initial single_road)).1 = Ok [([1; 2; 3]%Z, 200%float)] ∧
  reference_astar single_road 1%Z 9%Z = Raise NodeNotFound ∧
  (iteration reference_astar rotation 0%nat 1%Z 9%Z 0%nat [] (initial single_road)).1 = Ok [].
Proof.
  split; [|vm_compute; done].
  apply (failed_search_is_skipped reference_astar rotation 0%nat 1%Z 3%Z 1%nat [2%nat]
           [([1; 2; 3]%Z, 200%float)] (initial single_road) single_road).
  - apply reference_astar_contract.
  - reflexivity.
  - right. repeat constructor.
Defined.

Lemma alternative_search_graph_scenario :
  ∃ sels g',
    let temp_G := fresh (dom (graphs (initial scenario_graph))) in
    let σ' := mkState (<[temp_G := remove_nodes scenario_graph (concat sels)]>
                         (graphs (initial scenario_graph))) g' in
    graphs (initial scenario_graph) !! temp_G = None ∧
    perturbed_copy rotation 0%nat [([1; 2; 3; 4; 5]%Z, 400%float)] (initial scenario_graph) =
      (Ok temp_G, σ') ∧
    attempt reference_astar rotation 0%nat 1%Z 5%Z 1%nat [([1; 2; 3; 4; 5]%Z, 400%float)]
      (initial scenario_graph) = search reference_astar temp_G 1%Z 5%Z σ' ∧
    Forall2 (fun (r : Route float) sel =>
               drawn (interior r.1) (3 `min` length (interior r.1)) sel)
            [([1; 2; 3; 4; 5]%Z, 400%float)] sels.
Proof.
  apply (alternative_search_graph reference_astar rotation 0%nat 1%Z 5%Z 1%nat
           [([1; 2; 3; 4; 5]%Z, 400%float)] (initial scenario_graph) scenario_graph).
  - apply rotation_contract.
  - reflexivity.
  - discriminate.
  - apply Forall_cons. split; [simpl; lia|apply Forall_nil; exact I].
Defined.

(** C1, at the input where it fails: a graph with the single node 1, start =
    end = 1 and two routes asked for.  The first pass finds the route [1];
    the second asks the generator for min(3, 1 - 2) = -1 nodes, which raises
    [ValueError]; the call raises and returns no route. *)
Theorem calculate_alternative_routes_start_is_end {W R : Type} {NW : Number W}
    (astar_path : PathFinder W) (permutation : Sampler R) (g0 : R) :
  path_finder_contract astar_path →
  (calculate_alternative_routes astar_path permutation 0%nat 1%Z 1%Z 2%Z
     (mkState {[ 0%nat := one_node_graph ]} g0)).1 = Raise ValueError.
Proof.
  intros Hpf. unfold calculate_alternative_routes.
  change (seq 0 (Z.to_nat 2)) with [0; 1]%nat.
  set (σ := mkState {[ 0%nat := one_node_graph ]} g0).
  assert (graphs σ !! 0%nat = Some (one_node_graph (W:=W))) as Hg by done.
  rewrite for_range_cons.
  destruct (iteration_cases astar_path permutation 0%nat 1%Z 1%Z 0%nat [] σ _ Hpf Hg)
    as (ns & σ1 & _ & Hi0 & [(p & Hp & ->)|[(e & He & _)|(? & _)]] & _); [| |done].
  - destruct (Hi0 eq_refl) as [-> ->]. simpl in Hp.
    apply (pf_sound _ Hpf) in Hp as Hroute. destruct Hroute as (Hw%one_node_graph_walk & _).
    match goal with
    | |- (for_range _ _ _ _ _ _ ?routes _).1 = _ =>
        destruct (for_range_short astar_path permutation 0%nat 1%Z 1%Z 1%nat [] routes σ)
          as (σ' & ->); [done| |done]
    end.
    apply Exists_app. right. apply Exists_cons_hd. simpl. lia.
  - destruct (Hi0 eq_refl) as [-> _]. simpl in He.
    destruct (pf_complete _ Hpf one_node_graph 1%Z 1%Z) as (p & Hp); [|congruence].
    by exists [1%Z].
Qed.

Lemma calculate_alternative_routes_start_is_end_reference :
  (calculate_alternative_routes (W:=float) reference_astar rotation 0%nat 1%Z 1%Z 2%Z
     (mkState {[ 0%nat := one_node_graph ]} 0%nat)).1 = Raise ValueError.
Proof.
  apply calculate_alternative_routes_start_is_end, reference_astar_contract.
Defined.

(** C2, at the input where it fails: when the list holds the one-node route
    [s], the pass asks for min(3, 1 - 2) = -1 nodes where the claim has
    min(3, 0) = 0; the selection raises [ValueError], and no search is run
    on the copy. *)
Theorem perturbed_copy_one_node_route {W R : Type} {NW : Number W}
    (astar_path : PathFinder W) (permutation : Sampler R)
    (g : ref) (s t : node) (w : W) (σ : state W R) :
  interior_size [s] = (-1)%Z ∧
  (perturbed_copy permutation g [([s], w)] σ).1 = Raise ValueError ∧
  (attempt astar_path permutation g s t 1%nat [([s], w)] σ).1 = Raise ValueError.
Proof.
  split; [done|].
  assert ((perturbed_copy permutation g [([s], w)] σ).1 = Raise ValueError) as Hcopy.
  { destruct (perturbed_copy_cases permutation g [([s], w)] σ)
      as (o & ns & g' & -> & [[_ Hlong]|[-> _]]); [|done].
    apply Forall_cons in Hlong as [Hlen _]. simpl in Hlen. lia. }
  split; [done|]. unfold attempt. change (1 =? 0)%nat with false. cbv iota.
  rewrite run_bind.
  by destruct (perturbed_copy _ _ _ _) as [[tmp|e] σ']; simplify_eq/=.
Qed.

(** C5, at the input where it fails: one node, start = end, three routes
    asked for.  The first pass finds a route; the second makes its copy
    (object 1) and raises [ValueError]; the third pass never runs (there is
    no object 2), and the route found is not returned. *)
Theorem calculate_alternative_routes_stops_early :
  calculate_alternative_routes (W:=float) reference_astar rotation 0%nat 1%Z 1%Z 3%Z
    (initial one_node_graph) =
  (Raise ValueError, mkState {[ 0%nat := one_node_graph; 1%nat := one_node_graph ]} 0%nat).
Proof. vm_compute. reflexivity. Qed.

(** C3, as amended: when the end cannot be reached from the start in the
    full graph (an endpoint missing from the graph included), the call
    returns the empty list as a normal return, whatever [k]; no random draw
    is made and no graph object is changed.  The failure of the first pass
    is handled as the failure of any other pass is (the pass returns the
    list as it was and the loop goes on), and [main] then takes its
    "No route found" exit. *)
Theorem calculate_alternative_routes_unreachable {W R : Type} {NW : Number W}
    (astar_path : PathFinder W) (permutation : Sampler R)
    (g : ref) (s t : node) (k : Z) (σ : state W R) (G : Graph W) :
  path_finder_contract astar_path →
  graphs σ !! g = Some G →
  ¬ reachable G s t →
  (∃ σ', calculate_alternative_routes astar_path permutation g s t k σ = (Ok [], σ') ∧
         rng σ' = rng σ ∧ preserves σ σ') ∧
  (∀ i, (iteration astar_path permutation g s t i [] σ).1 = Ok []) ∧
  (main astar_path permutation g s t σ).1 = Ok None.
Proof.
  intros Hpf Hg Hno.
  assert (∀ k', ∃ σ', calculate_alternative_routes astar_path permutation g s t k' σ = (Ok [], σ') ∧
                      rng σ' = rng σ ∧ preserves σ σ') as Hcall.
  { intros k'. unfold calculate_alternative_routes.
    destruct (for_range_unreachable astar_path permutation g s t (seq 0 (Z.to_nat k')) σ G)
      as (σ' & Hrun & Hrng); [done..|].
    exists σ'. split; [done|]. split; [done|].
    pose proof (for_range_preserves astar_path permutation g s t (seq 0 (Z.to_nat k')) [] σ) as Hp.
    by rewrite Hrun in Hp. }
  split; [apply Hcall|]. split.
  - intros i.
    destruct (iteration_cases astar_path permutation g s t i [] σ G Hpf Hg)
      as (ns & σ1 & _ & _ & [(p & Hp & _)|[(e & _ & ->)|(_ & Hshort & _)]] & _); [|done|].
    + destruct Hno. exists p. eapply is_route_remove_nodes, (pf_sound _ Hpf), Hp.
    + by apply Exists_nil in Hshort.
  - unfold main. rewrite run_bind. by destruct (Hcall 3%Z) as (σ' & -> & _).
Qed.

Lemma two_islands_unreachable : ¬ reachable two_islands 1%Z 2%Z.
Proof.
  intros Hr.
  destruct (pf_complete _ reference_astar_contract _ _ _ Hr) as (p & Hp).
  vm_compute in Hp. discriminate.
Qed.

Lemma calculate_alternative_routes_unreachable_islands :
  (∃ σ', calculate_alternative_routes reference_astar rotation 0%nat 1%Z 2%Z 3%Z (initial two_islands)
           = (Ok [], σ') ∧
         rng σ' = rng (initial two_islands) ∧ preserves (initial two_islands) σ') ∧
  (∀ i, (iteration reference_astar rotation 0%nat 1%Z 2%Z i [] (initial two_islands)).1 = Ok []) ∧
  (main reference_astar rotation 0%nat 1%Z 2%Z (initial two_islands)).1 = Ok None.
Proof.
  apply (calculate_alternative_routes_unreachable reference_astar rotation
           0%nat 1%Z 2%Z 3%Z (initial two_islands) two_islands).
  - apply reference_astar_contract.
  - reflexivity.
  - apply two_islands_unreachable.
Defined.

(** C3 as stated fails: on two nodes without a road the call does not report
    an error.  It returns the empty list; the two later passes were still run
    (each left its copy: three graph objects at the end); and the outcome is
    the one obtained when the end node is not in the graph at all. *)
Lemma unreachable_end_is_not_escalated :
  escalates (calculate_alternative_routes reference_astar rotation 0%nat 1%Z 2%Z 3%Z
               (initial two_islands)).1 = false ∧
  (calculate_alternative_routes reference_astar rotation 0%nat 1%Z 2%Z 3%Z
     (initial two_islands)).1 = Ok [] ∧
  size (graphs (calculate_alternative_routes reference_astar rotation 0%nat 1%Z 2%Z 3%Z
                  (initial two_islands)).2) = 3%nat ∧
  (calculate_alternative_routes reference_astar rotation 0%nat 1%Z 9%Z 3%Z
     (initial two_islands)).1 = Ok [].
Proof. vm_compute. done. Qed.

(** C4, as amended: the routes are sorted by ascending length (a stable
    sort: a permutation of the list given in which routes of equal length
    keep their order) and labelled by position: position 0 "Shortest",
    position 1 "Alternative", every position from 2 on "Longest" (on the map
    "Shortest Route", "Alternative Route", "Longest Route").  For at most
    three routes this is the labelling of the claim.  The lengths are
    numbers that [<] orders as a strict weak order (no NaN among different
    lengths): for these the model's sort is [list.sort]. *)
Theorem ranking_labels_by_position {W : Type} {NW : Number W} (routes : list (Route W)) :
  routes ≠ [] →
  strict_weak_onb routes.*2 = true →
  ∃ m sorted,
    create_map_with_alternatives routes = Ok (m, sorted) ∧
    sorted ≡ₚ routes ∧ ascending sorted ∧ keeps_ties routes sorted ∧
    (∀ i r, sorted !! i = Some r →
       tooltip <$> polylines m !! i =
         Some (match i with
               | 0 => "Shortest Route" | 1 => "Alternative Route" | _ => "Longest Route"
               end%nat) ∧
       route_summary sorted !! i =
         Some (match i with
               | 0 => "Shortest" | 1 => "Alternative" | _ => "Longest"
               end%nat, distance_km r.2, time_min (distance_km r.2))) ∧
    ((length routes ≤ 3)%nat →
     (route_summary sorted).*1.*1 = spec_label (length routes) <$> seq 0 (length routes)).
Proof.
  intros Hne Hswo. destruct routes as [|r0 routes]; [done|].
  exists (mkMap (py_min (distance_km r0.2) (distances_km routes))
                (py_min (time_min (distance_km r0.2)) (times_min (distances_km routes)))
                (imap polyline (sort_by_length (r0 :: routes)))),
         (sort_by_length (r0 :: routes)).
  destruct (sort_by_length_stable (r0 :: routes) Hswo) as [Hasc Hties].
  split; [done|]. split; [apply sort_by_length_perm|].
  split; [done|]. split; [done|]. split.
  - intros i r Hi. cbn [polylines]. unfold route_summary.
    rewrite !list_lookup_imap, Hi. cbn [fmap option_fmap option_map].
    by rewrite tooltip_polyline, route_type_cases.
  - intros Hlen. pose proof (sort_by_length_perm (r0 :: routes)) as Hperm.
    apply Permutation_length in Hperm.
    destruct (sort_by_length (r0 :: routes)) as [|a [|b [|c [|d sorted]]]];
      rewrite <-Hperm; simpl in *; try done; lia.
Qed.

(** Five float lengths, two of them equal: the routes of 700 m stay in the
    order they were given. *)
Lemma ranking_labels_by_position_floats :
  ∃ m sorted,
    create_map_with_alternatives float_routes = Ok (m, sorted) ∧
    sorted = [([1; 5]%Z, 400%float); ([1; 6; 5]%Z, 700%float); ([1; 7; 5]%Z, 700%float);
              ([1; 2; 5]%Z, 900%float); ([1; 3; 4; 5]%Z, 1200%float)] ∧
    sorted ≡ₚ float_routes ∧ ascending sorted ∧ keeps_ties float_routes sorted ∧
    (∀ i r, sorted !! i = Some r →
       tooltip <$> polylines m !! i =
         Some (match i with
               | 0 => "Shortest Route" | 1 => "Alternative Route" | _ => "Longest Route"
               end%nat) ∧
       route_summary sorted !! i =
         Some (match i with
               | 0 => "Shortest" | 1 => "Alternative" | _ => "Longest"
               end%nat, distance_km r.2, time_min (distance_km r.2))).
Proof.
  destruct (ranking_labels_by_position float_routes)
    as (m & sorted & Hmap & Hperm & Hasc & Hties & Hlabels & _);
    [discriminate|reflexivity|].
  exists m, sorted. split; [done|]. split; [|done].
  vm_compute in Hmap. by injection Hmap as _ <-.
Defined.

(** A NaN between two different lengths is outside the strict weak orders. *)
Lemma nan_lengths_not_ordered : strict_weak_onb nan_lengths = false.
Proof. reflexivity. Qed.

(** C4 as stated fails on four routes: the route at position 2 is not the
    last one, and it is labelled "Longest", not "Alternative". *)
Lemma four_routes_labels :
  (route_summary (sort_by_length four_routes)).*1.*1 =
    ["Shortest"; "Alternative"; "Longest"; "Longest"] ∧
  spec_label 4 <$> seq 0 4 = ["Shortest"; "Alternative"; "Alternative"; "Longest"] ∧
  (route_summary (sort_by_length four_routes)).*1.*1 ≠ spec_label 4 <$> seq 0 4 ∧
  match create_map_with_alternatives four_routes with
  | Ok (m, sorted) => tooltip <$> polylines m
  | Raise _ => []
  end = ["Shortest Route"; "Alternative Route"; "Longest Route"; "Longest Route"].
Proof. vm_compute. repeat split; discriminate. Qed.

(** C6: every route the call returns was found by the search on a snapshot
    of [G] ([G] itself, or [G] less the nodes removed for that pass), and the
    length recorded with it is the sum, from the left, of the weights of its
    consecutive node pairs in that snapshot; the same sum is obtained in [G],
    since no node of the route was removed. *)
Theorem recorded_length_is_path_length {W R : Type} {NW : Number W}
    (astar_path : PathFinder W) (permutation : Sampler R)
    (g : ref) (s t : node) (k : Z) (σ σ' : state W R) (G : Graph W)
    (routes : list (Route W)) :
  path_finder_contract astar_path →
  graphs σ !! g = Some G →
  calculate_alternative_routes astar_path permutation g s t k σ = (Ok routes, σ') →
  Forall (fun r : Route W =>
            ∃ ns, astar_path (remove_nodes G ns) s t = Ok r.1 ∧
                  is_route (remove_nodes G ns) s t r.1 ∧
                  r.2 = path_length (remove_nodes G ns) r.1 ∧
                  r.2 = path_length G r.1) routes.
Proof.
  intros Hpf Hg Hrun. unfold calculate_alternative_routes in Hrun.
  eapply Forall_impl.
  { eapply for_range_computed; [done|done| |done]. constructor. }
  intros r (ns & Hc). exists ns.
  pose proof (computed_on_route astar_path G s t ns r Hpf Hc) as Hroute.
  destruct Hc as [Hp Hlen]. split; [done|]. split; [done|]. split; [done|].
  rewrite Hlen. apply path_length_remove_nodes.
  destruct Hroute as (Hw & _). by apply is_walk_remove_nodes in Hw as [_ ?].
Qed.

Lemma recorded_length_scenario :
  match (calculate_alternative_routes reference_astar rotation 0%nat 1%Z 5%Z 2%Z
           (initial scenario_graph)).1 with
  | Ok routes =>
      routes = [([1; 2; 3; 4; 5]%Z, 400%float); ([1; 6; 7; 5]%Z, 900%float)] ∧
      Forall (fun r : Route float =>
                ∃ ns, reference_astar (remove_nodes scenario_graph ns) 1%Z 5%Z = Ok r.1 ∧
                      is_route (remove_nodes scenario_graph ns) 1%Z 5%Z r.1 ∧
                      r.2 = path_length (remove_nodes scenario_graph ns) r.1 ∧
                      r.2 = path_length scenario_graph r.1) routes
  | Raise _ => False
  end.
Proof.
  assert ((calculate_alternative_routes reference_astar rotation 0%nat 1%Z 5%Z 2%Z
             (initial scenario_graph)).1 =
          Ok [([1; 2; 3; 4; 5]%Z, 400%float); ([1; 6; 7; 5]%Z, 900%float)]) as Hrun.
  { vm_compute. reflexivity. }
  rewrite Hrun. split; [reflexivity|].
  apply (recorded_length_is_path_length reference_astar rotation 0%nat 1%Z 5%Z 2%Z
           (initial scenario_graph)
           (calculate_alternative_routes reference_astar rotation 0%nat 1%Z 5%Z 2%Z
              (initial scenario_graph)).2
           scenario_graph).
  - apply reference_astar_contract.
  - reflexivity.
  - etrans; [apply surjective_pairing|]. by f_equal.
Defined.

(** C7: whatever the call does (return or raise), every graph object that
    existed before it, the input graph among them, has afterwards the nodes
    and edges it had.  The same holds for each pass of the loop, from any
    state; and all that lines 67-73 of a pass change is to add one new
    object, a copy of the input graph less some nodes. *)
Theorem input_graph_is_preserved {W R : Type} {NW : Number W}
    (astar_path : PathFinder W) (permutation : Sampler R)
    (g : ref) (s t : node) (k : Z) (σ : state W R) :
  preserves σ (calculate_alternative_routes astar_path permutation g s t k σ).2 ∧
  (∀ i routes σ1,
     preserves σ1 (iteration astar_path permutation g s t i routes σ1).2) ∧
  (∀ (routes : list (Route W)) (σ1 : state W R), ∃ o ns (g' : R),
     graphs σ1 !! fresh (dom (graphs σ1)) = None ∧
     perturbed_copy permutation g routes σ1 =
       (o, mkState (<[fresh (dom (graphs σ1)) := remove_nodes (graph_at σ1 g) ns]>
                      (graphs σ1)) g')).
Proof.
  split; [apply for_range_preserves|]. split; [intros; apply iteration_preserves|].
  intros routes σ1.
  destruct (perturbed_copy_cases permutation g routes σ1) as (o & ns & g' & Hrun & _).
  exists o, ns, g'. split; [apply fresh_ref|done].
Qed.

(** C8: two runs on the same graph objects, start, end and count, with
    generators that yield the same permutations (the same generator in the
    same state in particular), have the same outcome: the same routes with
    the same recorded lengths, or the same exception. *)
Theorem same_seed_same_routes {W R1 R2 : Type} {NW : Number W}
    (astar_path : PathFinder W) (perm1 : Sampler R1) (perm2 : Sampler R2)
    (rel : R1 → R2 → Prop) (g : ref) (s t : node) (k : Z)
    (objects : gmap ref (Graph W)) (g1 : R1) (g2 : R2) :
  same_draws perm1 perm2 rel →
  rel g1 g2 →
  (calculate_alternative_routes astar_path perm1 g s t k (mkState objects g1)).1 =
  (calculate_alternative_routes astar_path perm2 g s t k (mkState objects g2)).1.
Proof.
  intros Hdraws Hrel. unfold calculate_alternative_routes.
  by apply (same_run_for_range astar_path perm1 perm2 rel Hdraws).
Qed.

Lemma same_draws_rotation_Z :
  same_draws rotation rotation_Z (fun g1 g2 => g2 = Z.of_nat g1).
Proof.
  intros g1 g2 n ->. unfold rotation, rotation_Z. simpl.
  rewrite Nat2Z.id. split; [done|lia].
Qed.

Lemma same_seed_same_routes_scenario :
  (calculate_alternative_routes reference_astar rotation 0%nat 1%Z 5%Z 3%Z
     (mkState {[ 0%nat := scenario_graph ]} 7%nat)).1 =
  (calculate_alternative_routes reference_astar rotation_Z 0%nat 1%Z 5%Z 3%Z
     (mkState {[ 0%nat := scenario_graph ]} 7%Z)).1.
Proof.
  apply (same_seed_same_routes reference_astar rotation rotation_Z
           (fun g1 g2 => g2 = Z.of_nat g1)).
  - apply same_draws_rotation_Z.
  - reflexivity.
Defined.

(** C9: in binary64 arithmetic the distance shown for a length [d] is
    [d / 1000] and the time shown is [d / 1000 / 40 * 60], for every route
    and in every place where the program presents them: the lists of lines
    97-98 and their minima in the hospital popup, the popup of each line of
    the map, and the summary of [main].  For a length of 40000 m (also when
    40000 is the int) that is 40.0 km and 60.0 min. *)
Theorem forty_kilometres_sixty_minutes (routes : list (Route float)) :
  (∀ d : float, distance_km d = (d / 1000)%float) ∧
  (∀ km : float, time_min km = (km / 40 * 60)%float) ∧
  distance_km 40000%float = 40%float ∧
  time_min (distance_km 40000%float) = 60%float ∧
  distance_km (of_int 40000) = 40%float ∧
  distances_km routes = (fun r : Route float => (r.2 / 1000)%float) <$> routes ∧
  times_min (distances_km routes) =
    (fun r : Route float => (r.2 / 1000 / 40 * 60)%float) <$> routes ∧
  (∀ m sorted, create_map_with_alternatives routes = Ok (m, sorted) →
     Ok (shortest_km m) = min_of ((fun r : Route float => (r.2 / 1000)%float) <$> routes) ∧
     Ok (shortest_min m) =
       min_of ((fun r : Route float => (r.2 / 1000 / 40 * 60)%float) <$> routes) ∧
     popup_km <$> polylines m = (fun r : Route float => (r.2 / 1000)%float) <$> sorted ∧
     (route_summary sorted).*2 =
       (fun r : Route float => (r.2 / 1000 / 40 * 60)%float) <$> sorted ∧
     (route_summary sorted).*1.*2 = (fun r : Route float => (r.2 / 1000)%float) <$> sorted) ∧
  (∀ i route, routes !! i = Some (route, 40000%float) →
     distances_km routes !! i = Some 40%float ∧
     times_min (distances_km routes) !! i = Some 60%float ∧
     route_summary routes !! i = Some (route_type i, 40%float, 60%float)).
Proof.
  assert (distances_km routes = (fun r : Route float => (r.2 / 1000)%float) <$> routes)
    as Hkms by done.
  assert (times_min (distances_km routes) =
          (fun r : Route float => (r.2 / 1000 / 40 * 60)%float) <$> routes) as Hmins.
  { unfold times_min, distances_km. by rewrite <-list_fmap_compose. }
  split; [done|]. split; [done|]. split; [done|]. split; [done|]. split; [done|].
  split; [done|]. split; [done|]. split.
  - intros m sorted. unfold create_map_with_alternatives.
    rewrite Hmins, Hkms.
    destruct routes as [|r0 routes]; [done|].
    cbn [fmap list_fmap min_of]. intros [= <- <-]. cbn [shortest_km shortest_min polylines].
    split; [done|]. split; [done|]. unfold route_summary.
    generalize (sort_by_length (r0 :: routes)). intros sorted.
    repeat split; apply list_eq; intros i;
      rewrite ?list_lookup_fmap, list_lookup_imap; by destruct (sorted !! i).
  - intros i route Hi. rewrite Hmins, Hkms, !list_lookup_fmap, Hi.
    unfold route_summary. by rewrite list_lookup_imap, Hi.
Qed.

Lemma forty_kilometres_sixty_minutes_summary :
  distances_km [([1; 2; 5]%Z, 30000%float); ([1; 5]%Z, 40000%float)] !! 1%nat =
    Some 40%float ∧
  times_min (distances_km [([1; 2; 5]%Z, 30000%float); ([1; 5]%Z, 40000%float)]) !! 1%nat =
    Some 60%float ∧
  route_summary [([1; 2; 5]%Z, 30000%float); ([1; 5]%Z, 40000%float)] !! 1%nat =
    Some ("Alternative", 40%float, 60%float).
Proof.
  destruct (forty_kilometres_sixty_minutes
              [([1; 2; 5]%Z, 30000%float); ([1; 5]%Z, 40000%float)])
    as (_ & _ & _ & _ & _ & _ & _ & _ & Hsummary).
  apply (Hsummary 1%nat [1; 5]%Z). reflexivity.
Defined.

(** C10, as amended: the selection raises exactly for a route of fewer than
    two nodes (a one-node route, as found when start = end): the size asked
    for is then negative, [ValueError] is raised in every later pass, the
    handler does not catch it, and it ends the loop.  When every route in the
    list has two nodes or more (a direct start-to-end edge has two, and then
    a sample of size 0 is taken from the empty interior), the selection does
    not raise and the copy is handed to the search. *)
Theorem selection_error_propagates {W R : Type} {NW : Number W}
    (astar_path : PathFinder W) (permutation : Sampler R)
    (g : ref) (s t : node) (i : nat) (rest : list nat)
    (routes : list (Route W)) (σ : state W R) :
  is_path_error ValueError = false ∧
  (i ≠ 0%nat →
   Exists (fun r : Route W => length r.1 < 2)%nat routes →
   ∃ σ', for_range astar_path permutation g s t (i :: rest) routes σ =
           (Raise ValueError, σ')) ∧
  (Forall (fun r : Route W => 2 ≤ length r.1)%nat routes →
   ∃ σ', perturbed_copy permutation g routes σ = (Ok (fresh (dom (graphs σ))), σ')).
Proof.
  split; [done|]. split; [apply for_range_short|].
  intros Hlong.
  destruct (perturbed_copy_cases permutation g routes σ)
    as (o & ns & g' & -> & [[-> _]|[_ Hshort]]); [eauto|].
  destruct (long_not_short routes Hlong Hshort).
Qed.

Lemma selection_error_propagates_direct_edge :
  is_path_error ValueError = false ∧
  (∃ σ', for_range reference_astar rotation 0%nat 1%Z 1%Z [1; 2]%nat
           [([1%Z], 0%float)] (initial one_node_graph) = (Raise ValueError, σ')) ∧
  (∃ σ', perturbed_copy rotation 0%nat [([1; 2]%Z, 500%float)] (initial direct_edge_graph) =
           (Ok (fresh (dom (graphs (initial direct_edge_graph)))), σ')).
Proof.
  split; [reflexivity|]. split.
  - apply (selection_error_propagates reference_astar rotation 0%nat 1%Z 1%Z 1%nat [2%nat]
             [([1%Z], 0%float)] (initial one_node_graph)).
    + discriminate.
    + apply Exists_cons_hd. simpl. lia.
  - apply (selection_error_propagates reference_astar rotation 0%nat 1%Z 2%Z 1%nat []
             [([1; 2]%Z, 500%float)] (initial direct_edge_graph)).
    apply Forall_cons. split; [simpl; lia|apply Forall_nil; exact I].
Defined.

(** C10 as stated fails on a direct road from start to end: the first route
    has two nodes (fewer than three, no interior node), and the later passes
    raise nothing; each takes an empty sample and finds the route again. *)
Lemma direct_edge_raises_nothing :
  (calculate_alternative_routes reference_astar rotation 0%nat 1%Z 2%Z 3%Z
     (initial direct_edge_graph)).1 =
    Ok [([1; 2]%Z, 500%float); ([1; 2]%Z, 500%float); ([1; 2]%Z, 500%float)] ∧
  escalates (calculate_alternative_routes reference_astar rotation 0%nat 1%Z 2%Z 3%Z
               (initial direct_edge_graph)).1 = false ∧
  (choice rotation [] (Z.min 3 (interior_size [1; 2]%Z)) (initial direct_edge_graph)).1 = Ok [].
Proof. vm_compute. done. Qed.

(** * Further properties of the route search *)

Section RouteSearch.
Context {W R : Type} {NW : Number W}.
Variable astar_path : PathFinder W.
Variable permutation : Sampler R.
Implicit Types (σ : state W R) (G : Graph W) (routes : list (Route W)).

Lemma iteration_appends g s t i routes routes' σ σ' :
  iteration astar_path permutation g s t i routes σ = (Ok routes', σ') →
  routes' = routes ∨ ∃ r, routes' = routes ++ [r].
Proof.
  unfold iteration, try_except. rewrite run_bind.
  destruct (attempt _ _ _ _ _ _ _ _) as [[r|e] σ1]; simpl.
  - intros [= <- _]. eauto.
  - destruct (is_path_error e); [|done]. intros [= <- _]. by left.
Qed.

Lemma for_range_extends g s t indices routes routes' σ σ' :
  for_range astar_path permutation g s t indices routes σ = (Ok routes', σ') →
  ∃ more, routes' = routes ++ more ∧ (length more ≤ length indices)%nat.
Proof.
  revert routes σ. induction indices as [|i indices IH]; intros routes σ.
  - simpl. intros [= <- _]. exists []. by rewrite app_nil_r.
  - rewrite for_range_cons.
    destruct (iteration _ _ _ _ _ _ _ _) as [[routes1|e] σ1] eqn:Hit; [|done].
    intros (more & -> & Hlen)%IH.
    apply iteration_appends in Hit as [->|(r & ->)].
    + exists more. split; [done|]. simpl. lia.
    + exists (r :: more). rewrite <-app_assoc. split; [done|]. simpl. lia.
Qed.

(** Whatever the graph, the path finder and the generator, a call that
    returns gives at most [num_routes] routes; for a count of 0 or less it
    returns the empty list at once, leaving the state as it was. *)
Theorem calculate_alternative_routes_at_most g s t k routes σ σ' :
  calculate_alternative_routes astar_path permutation g s t k σ = (Ok routes, σ') →
  (length routes ≤ Z.to_nat k)%nat ∧
  ((k ≤ 0)%Z → routes = [] ∧ σ' = σ).
Proof.
  unfold calculate_alternative_routes. intros Hrun. split.
  - apply for_range_extends in Hrun as (more & -> & Hlen).
    by rewrite length_seq in Hlen.
  - intros Hk. replace (Z.to_nat k) with 0%nat in Hrun by lia.
    simpl in Hrun. by injection Hrun as <- <-.
Qed.

(** A call that returns gives an empty list exactly when no route was asked
    for or the end cannot be reached from the start in the full graph;
    otherwise the first route of the list is the one the search finds on the
    full graph, with its length there. *)
Theorem first_route_is_found_on_full_graph g s t k routes σ σ' G :
  path_finder_contract astar_path →
  graphs σ !! g = Some G →
  calculate_alternative_routes astar_path permutation g s t k σ = (Ok routes, σ') →
  (routes = [] ↔ (k ≤ 0)%Z ∨ ¬ reachable G s t) ∧
  (∀ r, head routes = Some r →
        astar_path G s t = Ok r.1 ∧ r.2 = path_length G r.1).
Proof.
  intros Hpf Hg. unfold calculate_alternative_routes.
  destruct (Z.to_nat k) as [|n] eqn:Hk.
  { simpl. intros [= <- _]. split; [|done]. split; [left; lia|done]. }
  change (seq 0 (S n)) with (0%nat :: seq 1 n). rewrite for_range_cons.
  destruct (iteration_cases astar_path permutation g s t 0%nat [] σ G Hpf Hg)
    as (ns & σ1 & _ & Hi0 & [(p & Hp & ->)|[(e & He & ->)|(? & _)]] & _); [| |done];
    destruct (Hi0 eq_refl) as [-> ->]; simpl in *.
  - intros (more & -> & _)%for_range_extends. split.
    + split; [done|]. intros [?|Hno]; [lia|]. destruct Hno.
      exists p. by apply (pf_sound _ Hpf).
    + by intros r [= <-].
  - assert (¬ reachable G s t) as Hno.
    { intros (p & Hp)%(pf_complete _ Hpf). congruence. }
    destruct (for_range_unreachable astar_path permutation g s t (seq 1 n) σ G)
      as (σ2 & -> & _); [done..|].
    intros [= <- _]. split; [|done]. split; [by right|done].
Qed.

Lemma interior_subseteq (route : list node) x : x ∈ interior route → x ∈ route.
Proof.
  unfold interior. destruct route as [|a route]; [done|]. simpl.
  destruct route as [|b route _] using rev_ind; [by intros ?%elem_of_nil|].
  rewrite removelast_last. set_solver.
Qed.

Lemma drawn_elem (a : list node) k sel :
  drawn a k sel → length sel = k ∧ ∀ x, x ∈ sel → x ∈ a.
Proof.
  intros (idx & _ & Hlen & Hsel). split.
  - by rewrite <-(Forall2_length _ _ _ Hsel).
  - intros x (j & Hj)%list_elem_of_lookup.
    destruct (Forall2_lookup_r _ _ _ _ _ Hsel Hj) as (i & _ & Hi).
    by eapply list_elem_of_lookup_2.
Qed.

(** A route of three nodes or more in the list loses one of its interior
    nodes, at least, in the copy. *)
Lemma perturbed_copy_removes g routes σ G :
  sampler_contract permutation →
  graphs σ !! g = Some G →
  Forall (fun r : Route W => 2 ≤ length r.1)%nat routes →
  ∃ ns g',
    perturbed_copy permutation g routes σ =
      (Ok (fresh (dom (graphs σ))),
       mkState (<[fresh (dom (graphs σ)) := remove_nodes G ns]> (graphs σ)) g') ∧
    ∀ r : Route W, r ∈ routes → (3 ≤ length r.1)%nat →
        ∃ x, x ∈ interior r.1 ∧ x ∈ ns.
Proof.
  intros Hperm Hg Hlong.
  destruct (deplete_all_ok permutation (fresh (dom (graphs σ))) routes
              (mkState (<[fresh (dom (graphs σ)) := G]> (graphs σ)) (rng σ)) G)
    as (sels & g' & Hrun & Hsels); [done|apply lookup_insert_eq|done|].
  exists (concat sels), g'. split.
  - unfold perturbed_copy.
    rewrite run_bind, copy_run, (graph_at_Some σ g G), run_bind, Hrun by done.
    simpl. by rewrite insert_insert_eq.
  - intros r (j & Hj)%list_elem_of_lookup Hlen.
    destruct (Forall2_lookup_l _ _ _ _ _ Hsels Hj) as (sel & Hsel & Hdrawn).
    apply drawn_elem in Hdrawn as [Hk Hin].
    pose proof (length_interior r.1) as Hint.
    destruct sel as [|x sel]; [cbn [length] in Hk; lia|].
    exists x. split; [apply Hin; left|].
    apply list_elem_of_In, in_concat. exists (x :: sel).
    split; apply list_elem_of_In; [by eapply list_elem_of_lookup_2|left].
Qed.

(** The route a later pass appends leaves out an interior node of every
    earlier route of three nodes or more. *)
Lemma iteration_avoids g s t i routes routes' σ σ' G :
  path_finder_contract astar_path →
  sampler_contract permutation →
  graphs σ !! g = Some G →
  i ≠ 0%nat →
  iteration astar_path permutation g s t i routes σ = (Ok routes', σ') →
  routes' = routes ∨
  ∃ r', routes' = routes ++ [r'] ∧
        ∀ r : Route W, r ∈ routes → (3 ≤ length r.1)%nat →
            ∃ x, x ∈ interior r.1 ∧ x ∉ r'.1.
Proof.
  intros Hpf Hperm Hg Hi. unfold iteration, try_except, attempt.
  apply Nat.eqb_neq in Hi as ->. rewrite !run_bind.
  destruct (perturbed_copy_cases permutation g routes σ)
    as (o & ns0 & g0 & Hcopy & [[-> Hlong]|[-> _]]); [|by rewrite Hcopy].
  destruct (perturbed_copy_removes g routes σ G Hperm Hg Hlong)
    as (ns & g' & -> & Hremoved).
  rewrite search_run, graph_at_insert_fresh by done.
  destruct (astar_path (remove_nodes G ns) s t) as [p|e] eqn:Hp; simpl.
  - intros [= <- _]. right. eexists. split; [done|]. simpl.
    intros r Hr Hlen. destruct (Hremoved r Hr Hlen) as (x & Hx & Hns).
    exists x. split; [done|]. intros Hxp.
    apply (pf_sound _ Hpf) in Hp as (Hw & _).
    apply is_walk_remove_nodes in Hw as [_ Havoid]. by apply (Havoid x).
  - destruct (is_path_error e); [|done]. intros [= <- _]. by left.
Qed.

Lemma for_range_distinct g s t indices routes routes' σ σ' G :
  path_finder_contract astar_path →
  sampler_contract permutation →
  graphs σ !! g = Some G →
  Forall (fun i => i ≠ 0%nat) indices →
  (∀ i j (ri rj : Route W), (i < j)%nat → routes !! i = Some ri → routes !! j = Some rj →
     (3 ≤ length ri.1)%nat → ∃ x, x ∈ interior ri.1 ∧ x ∉ rj.1) →
  for_range astar_path permutation g s t indices routes σ = (Ok routes', σ') →
  ∀ i j (ri rj : Route W), (i < j)%nat → routes' !! i = Some ri → routes' !! j = Some rj →
    (3 ≤ length ri.1)%nat → ∃ x, x ∈ interior ri.1 ∧ x ∉ rj.1.
Proof.
  intros Hpf Hperm. revert routes σ.
  induction indices as [|i0 indices IH]; intros routes σ Hg Hidx Hinv.
  - simpl. by intros [= <- _].
  - apply Forall_cons in Hidx as [Hi0 Hidx]. rewrite for_range_cons.
    pose proof (iteration_preserves astar_path permutation g s t i0 routes σ) as Hpres.
    destruct (iteration _ _ _ _ _ _ _ _) as [[routes1|e] σ1] eqn:Hit; [|done].
    simpl in Hpres. apply IH; [by eapply preserves_graph_at|done|].
    apply (iteration_avoids g s t i0 routes routes1 σ σ1 G) in Hit
      as [->|(r' & -> & Hnew)]; [done| |done..].
    intros i j ri rj Hij Hri Hrj Hlen.
    destruct (decide (j < length routes)%nat) as [Hj|Hj].
    + rewrite lookup_app_l in Hri, Hrj by lia. by apply (Hinv i j ri rj).
    + rewrite lookup_app_r in Hrj by lia.
      destruct (j - length routes)%nat as [|?] eqn:Hjn; [|done].
      injection Hrj as <-.
      rewrite lookup_app_l in Hri by lia.
      apply Hnew; [by eapply list_elem_of_lookup_2|done].
Qed.

(** No route of three nodes or more is returned twice: a route returned after
    it leaves out one of its interior nodes.  (Only a direct start-to-end
    edge can come back.) *)
Theorem long_routes_are_not_repeated g s t k routes σ σ' G :
  path_finder_contract astar_path →
  sampler_contract permutation →
  graphs σ !! g = Some G →
  calculate_alternative_routes astar_path permutation g s t k σ = (Ok routes, σ') →
  ∀ i j (ri rj : Route W), (i < j)%nat → routes !! i = Some ri → routes !! j = Some rj →
    (3 ≤ length ri.1)%nat →
    ri.1 ≠ rj.1 ∧ ∃ x, x ∈ interior ri.1 ∧ x ∉ rj.1.
Proof.
  intros Hpf Hperm Hg Hrun.
  assert (∀ i j (ri rj : Route W), (i < j)%nat → routes !! i = Some ri →
            routes !! j = Some rj → (3 ≤ length ri.1)%nat →
            ∃ x, x ∈ interior ri.1 ∧ x ∉ rj.1) as Hall.
  { revert Hrun. unfold calculate_alternative_routes.
    destruct (Z.to_nat k) as [|n]; [simpl; by intros [= <- _] ? ? ? ? ? ?|].
    change (seq 0 (S n)) with (0%nat :: seq 1 n). rewrite for_range_cons.
    pose proof (iteration_preserves astar_path permutation g s t 0%nat [] σ) as Hpres.
    destruct (iteration _ _ _ _ _ _ _ _) as [[routes1|e] σ1] eqn:Hit; [|done].
    simpl in Hpres.
    apply (for_range_distinct g s t (seq 1 n) routes1 routes σ1 σ' G);
      [done|done|by eapply preserves_graph_at| |].
    - apply Forall_forall. intros i Hi%elem_of_seq. lia.
    - apply iteration_appends in Hit as [->|(r & ->)]; intros i j ri rj Hij Hri Hrj.
      + done.
      + destruct i, j; simpl in *; try done; lia. }
  intros i j ri rj Hij Hri Hrj Hlen.
  destruct (Hall i j ri rj Hij Hri Hrj Hlen) as (x & Hx & Hxj).
  split; [|eauto]. intros Heq. apply Hxj. rewrite <-Heq. by apply interior_subseteq.
Qed.
End RouteSearch.

Lemma scenario_two_routes :
  calculate_alternative_routes reference_astar rotation 0%nat 1%Z 5%Z 2%Z
    (initial scenario_graph) =
  (Ok [([1; 2; 3; 4; 5]%Z, 400%float); ([1; 6; 7; 5]%Z, 900%float)],
   (calculate_alternative_routes reference_astar rotation 0%nat 1%Z 5%Z 2%Z
      (initial scenario_graph)).2).
Proof. etrans; [apply surjective_pairing|]. by f_equal. Qed.

Lemma calculate_alternative_routes_at_most_scenario :
  ((length [([1; 2; 3; 4; 5]%Z, 400%float); ([1; 6; 7; 5]%Z, 900%float)] ≤ Z.to_nat 2)%nat ∧
   ((2 ≤ 0)%Z →
    [([1; 2; 3; 4; 5]%Z, 400%float); ([1; 6; 7; 5]%Z, 900%float)] = [] ∧
    (calculate_alternative_routes reference_astar rotation 0%nat 1%Z 5%Z 2%Z
       (initial scenario_graph)).2 = initial scenario_graph)) ∧
  ((length ([] : list (Route float)) ≤ Z.to_nat 0)%nat ∧
   ((0 ≤ 0)%Z → ([] : list (Route float)) = [] ∧ initial scenario_graph = initial scenario_graph)).
Proof.
  split.
  - apply (calculate_alternative_routes_at_most reference_astar rotation 0%nat 1%Z 5%Z 2%Z
             _ (initial scenario_graph)).
    apply scenario_two_routes.
  - apply (calculate_alternative_routes_at_most reference_astar rotation 0%nat 1%Z 5%Z 0%Z).
    reflexivity.
Defined.

Lemma first_route_is_found_on_full_graph_scenario :
  ([([1; 2; 3; 4; 5]%Z, 400%float); ([1; 6; 7; 5]%Z, 900%float)] = [] ↔
   (2 ≤ 0)%Z ∨ ¬ reachable scenario_graph 1%Z 5%Z) ∧
  (∀ r : Route float,
     head [([1; 2; 3; 4; 5]%Z, 400%float); ([1; 6; 7; 5]%Z, 900%float)] = Some r →
     reference_astar scenario_graph 1%Z 5%Z = Ok r.1 ∧ r.2 = path_length scenario_graph r.1).
Proof.
  apply (first_route_is_found_on_full_graph reference_astar rotation 0%nat 1%Z 5%Z 2%Z
           [([1; 2; 3; 4; 5]%Z, 400%float); ([1; 6; 7; 5]%Z, 900%float)] (initial scenario_graph)
           (calculate_alternative_routes reference_astar rotation 0%nat 1%Z 5%Z 2%Z
              (initial scenario_graph)).2 scenario_graph).
  - apply reference_astar_contract.
  - reflexivity.
  - apply scenario_two_routes.
Defined.

Lemma long_routes_are_not_repeated_scenario :
  [1; 2; 3; 4; 5]%Z ≠ [1; 6; 7; 5]%Z ∧
  ∃ x, x ∈ interior [1; 2; 3; 4; 5]%Z ∧ x ∉ [1; 6; 7; 5]%Z.
Proof.
  apply (long_routes_are_not_repeated reference_astar rotation 0%nat 1%Z 5%Z 2%Z
           [([1; 2; 3; 4; 5]%Z, 400%float); ([1; 6; 7; 5]%Z, 900%float)]
           (initial scenario_graph)
           (calculate_alternative_routes reference_astar rotation 0%nat 1%Z 5%Z 2%Z
              (initial scenario_graph)).2 scenario_graph
           reference_astar_contract rotation_contract eq_refl scenario_two_routes
           0%nat 1%nat ([1; 2; 3; 4; 5]%Z, 400%float) ([1; 6; 7; 5]%Z, 900%float)).
  - lia.
  - reflexivity.
  - reflexivity.
  - simpl. lia.
Defined.

(** * Further properties of the ranking and of [main] *)

Section RankingOrder.
Context {W : Type} {NW : Number W}.
Implicit Types (r x y : Route W) (routes : list (Route W)).

Lemma insert_by_length_last x routes :
  Forall (fun y => not_longer y x) routes →
  insert_by_length x routes = routes ++ [x].
Proof.
  induction 1 as [|y routes Hy _ IH]; simpl; [done|].
  unfold not_longer in Hy. by rewrite Hy, IH.
Qed.

Lemma sort_by_length_sorted routes :
  ascending routes → sort_by_length routes = routes.
Proof.
  unfold sort_by_length.
  assert (∀ acc, ascending (acc ++ routes) →
            fold_left (fun sorted x => insert_by_length x sorted) routes acc = acc ++ routes)
    as Hgen; [|apply (Hgen [])].
  induction routes as [|x routes IH]; intros acc Hacc; simpl.
  - by rewrite app_nil_r.
  - rewrite insert_by_length_last.
    + rewrite IH; rewrite <-app_assoc; done.
    + apply Forall_forall. intros y Hy.
      eapply StronglySorted_app_1_elem_of; [done|done|left].
Qed.

(** Sorting keeps a list that is already in ascending order as it is, routes
    of equal length included (they stay in the order they were found); to
    sort twice is to sort once. *)
Theorem sort_by_length_keeps_order `{!NumberOrder W} routes :
  (ascending routes → sort_by_length routes = routes) ∧
  sort_by_length (sort_by_length routes) = sort_by_length routes.
Proof.
  split; [apply sort_by_length_sorted|].
  apply sort_by_length_sorted, sort_by_length_ascending.
Qed.

(** Every line drawn on the map has a colour and a label that the legend
    pairs; the thick line (weight 4) and the label "Shortest Route" go to the
    first route of the sorted list and to no other; line [i] follows the
    nodes of route [i] and shows its length in km. *)
Theorem lines_follow_legend routes m sorted :
  create_map_with_alternatives routes = Ok (m, sorted) →
  length (polylines m) = length routes ∧
  ∀ i line, polylines m !! i = Some line →
    (color line, tooltip line) ∈ legend ∧
    (line_weight line = 4%Z ↔ i = 0%nat) ∧
    (tooltip line = "Shortest Route" ↔ i = 0%nat) ∧
    ∃ r, sorted !! i = Some r ∧ locations line = r.1 ∧ popup_km line = distance_km r.2.
Proof.
  unfold create_map_with_alternatives. destruct routes as [|r0 routes]; [done|].
  cbn [distances_km times_min map min_of]. intros [= <- <-]. cbn [polylines]. split.
  - by rewrite length_imap, (Permutation_length (sort_by_length_perm _)).
  - intros i line. rewrite list_lookup_imap.
    destruct (sort_by_length (r0 :: routes) !! i) as [r|]; [|done].
    intros [= <-]. split; [|split; [|split]].
    + destruct i as [|[|[|i]]]; unfold legend; set_solver.
    + by destruct i.
    + by destruct i as [|[|[|i]]].
    + by exists r.
Qed.

(** The distance in the hospital popup, [min(distances_km)], taken before the
    sort, is the distance shown by the line labelled "Shortest Route", and
    no route has a smaller distance.  This is for lengths that [<] orders
    as a strict weak order (so that the sort of line 117 is the stable sort)
    and that division by 1000 neither reorders nor merges. *)
Theorem popup_shows_shortest_line routes m sorted :
  strict_weak_onb routes.*2 = true →
  km_keeps_order routes.*2 = true →
  create_map_with_alternatives routes = Ok (m, sorted) →
  ∃ line, polylines m !! 0%nat = Some line ∧
          tooltip line = "Shortest Route" ∧
          shortest_km m = popup_km line ∧
          ∀ r, r ∈ routes → num_ltb (distance_km r.2) (popup_km line) = false.
Proof.
  intros Hswo Hkeep. unfold create_map_with_alternatives.
  destruct routes as [|r0 routes]; [done|].
  cbn [distances_km times_min map min_of]. intros [= <- <-]. cbn [polylines shortest_km].
  destruct (sort_by_length_stable (r0 :: routes) Hswo) as [Hasc _].
  pose proof (sort_by_length_perm (r0 :: routes)) as Hperm.
  destruct (sort_by_length_head r0 routes) as (h & sorted & Hsort & Hh).
  rewrite Hsort in Hasc, Hperm |- *. rewrite list_lookup_imap.
  exists (polyline 0 h). split; [done|]. split; [done|]. cbn [popup_km polyline].
  split.
  - rewrite Hh, <-py_min_km by done.
    f_equal. by rewrite <-list_fmap_compose.
  - intros r Hr.
    assert (h ∈ r0 :: routes) as Hin by (rewrite <-Hperm; left).
    rewrite (km_keeps_order_spec _ Hkeep) by by apply list_elem_of_fmap_2.
    rewrite <-Hperm in Hr. apply elem_of_cons in Hr as [->|Hr].
    + apply strict_weak_onb_spec in Hswo as (Hirr & _). apply Hirr.
      by apply list_elem_of_fmap_2.
    + apply StronglySorted_inv in Hasc as [_ Hleast].
      rewrite Forall_forall in Hleast. by apply Hleast.
Qed.
End RankingOrder.

Section MainFacts.
Context {W R : Type} {NW : Number W}.
Variable astar_path : PathFinder W.
Variable permutation : Sampler R.

(** [main] asks for three routes and draws the map only for a non-empty list:
    it takes the "No route found" exit exactly when no route was returned,
    and raises only what the route search raised ([min] is never given an
    empty list).  Otherwise the summary has one line per line of the map,
    three at most, in the order of the map: line [i] of the summary gives the
    distance shown by line [i] of the map under the matching label. *)
Theorem summary_follows_map (g : ref) (s t : node) (σ : state W R) :
  (∀ e, (main astar_path permutation g s t σ).1 = Raise e →
        (calculate_alternative_routes astar_path permutation g s t 3 σ).1 = Raise e) ∧
  ((main astar_path permutation g s t σ).1 = Ok None ↔
   (calculate_alternative_routes astar_path permutation g s t 3 σ).1 = Ok []) ∧
  (∀ m summary,
     (main astar_path permutation g s t σ).1 = Ok (Some (m, summary)) →
     length summary = length (polylines m) ∧
     (1 ≤ length summary ≤ 3)%nat ∧
     ∀ i line entry, polylines m !! i = Some line → summary !! i = Some entry →
       entry.1.2 = popup_km line ∧ tooltip line = entry.1.1 +:+ " Route").
Proof.
  unfold main. rewrite run_bind.
  destruct (calculate_alternative_routes _ _ _ _ _ _ _) as [[routes|e] σ'] eqn:Hrun.
  2:{ simpl. split; [by intros e0 [= ->]|]. split; [by split|]. by intros m summary. }
  unfold calculate_alternative_routes in Hrun.
  apply for_range_extends in Hrun as (more & -> & Hlen).
  rewrite length_seq in Hlen. simpl in Hlen.
  destruct more as [|r0 routes].
  { simpl. split; [done|]. split; [by split|]. by intros m summary. }
  unfold create_map_with_alternatives. cbn [distances_km times_min map min_of].
  pose proof (Permutation_length (sort_by_length_perm (r0 :: routes))) as Hsorted.
  simpl. split; [done|]. split; [done|].
  intros m summary [= <- <-]. cbn [polylines]. unfold route_summary.
  rewrite !length_imap. split; [done|].
  split; [rewrite Hsorted; simpl in *; lia|].
  intros i line entry. rewrite !list_lookup_imap.
  destruct (sort_by_length (r0 :: routes) !! i) as [r|]; [|done].
  intros [= <-] [= <-]. split; [done|]. by destruct i as [|[|[|i]]].
Qed.
End MainFacts.

Lemma ascending_routes_ascending : ascending ascending_routes.
Proof. unfold ascending, ascending_routes. repeat constructor. Qed.

Lemma sort_by_length_keeps_order_tie :
  sort_by_length ascending_routes = ascending_routes ∧
  sort_by_length (sort_by_length four_routes) = sort_by_length four_routes.
Proof.
  split.
  - apply (sort_by_length_keeps_order ascending_routes), ascending_routes_ascending.
  - apply (sort_by_length_keeps_order four_routes).
Defined.

Lemma lines_follow_legend_four :
  ∃ m sorted,
    create_map_with_alternatives four_routes = Ok (m, sorted) ∧
    length (polylines m) = length four_routes ∧
    ∀ i line, polylines m !! i = Some line →
      (color line, tooltip line) ∈ legend ∧
      (line_weight line = 4%Z ↔ i = 0%nat) ∧
      (tooltip line = "Shortest Route" ↔ i = 0%nat) ∧
      ∃ r, sorted !! i = Some r ∧ locations line = r.1 ∧ popup_km line = distance_km r.2.
Proof.
  eexists _, _. split; [vm_compute; reflexivity|].
  eapply (lines_follow_legend four_routes). vm_compute. reflexivity.
Defined.

Lemma popup_shows_shortest_line_floats :
  ∃ m sorted,
    create_map_with_alternatives float_routes = Ok (m, sorted) ∧
    shortest_km m = 0.4%float ∧
    ∃ line, polylines m !! 0%nat = Some line ∧
            tooltip line = "Shortest Route" ∧
            shortest_km m = popup_km line ∧
            ∀ r, r ∈ float_routes → num_ltb (distance_km r.2) (popup_km line) = false.
Proof.
  eexists _, _. split; [vm_compute; reflexivity|]. split; [reflexivity|].
  eapply (popup_shows_shortest_line float_routes).
  - reflexivity.
  - reflexivity.
  - vm_compute. reflexivity.
Defined.

Lemma summary_follows_map_scenario :
  ∃ m summary,
    (main reference_astar rotation 0%nat 1%Z 5%Z (initial scenario_graph)).1 =
      Ok (Some (m, summary)) ∧
    length summary = length (polylines m) ∧
    (1 ≤ length summary ≤ 3)%nat ∧
    ∀ i line entry, polylines m !! i = Some line → summary !! i = Some entry →
      entry.1.2 = popup_km line ∧ tooltip line = entry.1.1 +:+ " Route".
Proof.
  eexists _, _. split; [vm_compute; reflexivity|].
  eapply (summary_follows_map reference_astar rotation 0%nat 1%Z 5%Z (initial scenario_graph)).
  vm_compute. reflexivity.
Defined.

(** * Properties of the terminal functions *)

Section TerminalFacts.
Variable repr : float * float → string.
Variable py_int : string → option Z.
Variable locations : list (string * (float * float)).

Lemma rejections_cons line lines :
  rejections py_int (line :: lines) = rejections py_int [line] ++ rejections py_int lines.
Proof. unfold rejections. cbn [flat_map]. by rewrite app_nil_r. Qed.

Lemma get_user_selection_rejected line rest :
  accepted py_int locations line = false →
  get_user_selection py_int locations (line :: rest) =
  ((get_user_selection py_int locations rest).1.1,
   (get_user_selection py_int locations rest).1.2,
   rejections py_int [line] ++ (get_user_selection py_int locations rest).2).
Proof.
  unfold accepted, rejections. simpl.
  destruct (get_user_selection py_int locations rest) as [[outcome unread] written].
  destruct (py_int line) as [choice|]; simpl; [by intros ->|done].
Qed.

(** The loop passes over every line that is not an int between 1 and the
    number of hospitals, asking again after a message for each, and returns
    for the first line that is one: the hospital at that position of the
    dict.  The lines after it are left unread. *)
Theorem get_user_selection_first_accepted (bad : list string) (good : string)
    (rest : list string) (choice : Z) :
  Forall (fun line => accepted py_int locations line = false) bad →
  py_int good = Some choice →
  (1 ≤ choice ≤ Z.of_nat (length locations))%Z →
  ∃ name coords,
    locations !! Z.to_nat (choice - 1) = Some (name, coords) ∧
    get_user_selection py_int locations (bad ++ good :: rest) =
      (Returned name, rest, rejections py_int bad ++ ask).
Proof.
  intros Hbad Hgood Hrange.
  destruct (lookup_lt_is_Some_2 locations (Z.to_nat (choice - 1))) as [[name coords] Hname];
    [lia|].
  exists name, coords. split; [done|].
  induction Hbad as [|line bad Hline _ IH].
  - simpl. rewrite Hgood, bool_decide_eq_true_2 by done.
    by rewrite list_lookup_fmap, Hname.
  - change ((line :: bad) ++ good :: rest) with (line :: (bad ++ good :: rest)).
    rewrite get_user_selection_rejected, IH by done.
    cbn [fst snd]. by rewrite (rejections_cons line bad), <-app_assoc.
Qed.

(** When no line is accepted (no line at all included), every line is read,
    the question is asked once more and [input] raises [EOFError], which the
    handler of [ValueError] lets through. *)
Theorem get_user_selection_end_of_input (lines : list string) :
  Forall (fun line => accepted py_int locations line = false) lines →
  get_user_selection py_int locations lines =
    (EOFError, [], rejections py_int lines ++ ask).
Proof.
  induction 1 as [|line lines Hline _ IH]; [done|].
  rewrite get_user_selection_rejected, IH by done.
  cbn [fst snd]. by rewrite (rejections_cons line lines), <-app_assoc.
Qed.

(** A hospital that is returned is one of the dict, and at least one line
    was read for it. *)
Theorem get_user_selection_returns_listed (lines unread : list string)
    (name : string) (written : list event) :
  get_user_selection py_int locations lines = (Returned name, unread, written) →
  name ∈ locations.*1 ∧ (length unread < length lines)%nat.
Proof.
  revert written. induction lines as [|line lines IH]; intros written; [done|].
  destruct (accepted py_int locations line) eqn:Hline.
  - unfold accepted in Hline. simpl.
    destruct (py_int line) as [choice|]; [|done]. rewrite Hline.
    apply bool_decide_eq_true in Hline.
    destruct (lookup_lt_is_Some_2 (locations.*1) (Z.to_nat (choice - 1))) as [key Hkey].
    { rewrite length_fmap. lia. }
    rewrite Hkey. simpl. intros [= <- <- _]. split; [|simpl; lia].
    by eapply list_elem_of_lookup_2.
  - rewrite get_user_selection_rejected by done.
    destruct (get_user_selection py_int locations lines) as [[outcome unread'] written'].
    simpl. intros [= -> -> _]. destruct (IH written' eq_refl) as [? ?].
    split; [done|]. simpl. lia.
Qed.

(** The number shown in front of a hospital by [display_hospitals] is the
    number that selects it: a line that [int] reads as that number makes
    [get_user_selection] return that hospital. *)
Theorem displayed_number_selects_hospital (i : nat) (name : string)
    (coords : float * float) :
  locations !! i = Some (name, coords) →
  print (pretty (S i) +:+ ". " +:+ name) ∈ display_hospitals repr locations ∧
  ∀ line rest, py_int line = Some (Z.of_nat (S i)) →
    get_user_selection py_int locations (line :: rest) = (Returned name, rest, ask).
Proof.
  intros Hi. split.
  - unfold display_hospitals. apply elem_of_app. right.
    apply list_elem_of_In, in_flat_map. exists (S i, (name, coords)). split.
    + apply list_elem_of_In, list_elem_of_lookup. exists i.
      unfold enumerate. by rewrite list_lookup_imap, Hi.
    + left. done.
  - intros line rest Hline. simpl. rewrite Hline.
    apply lookup_lt_Some in Hi as Hlt.
    rewrite bool_decide_eq_true_2 by lia.
    replace (Z.to_nat (Z.of_nat (S i) - 1)) with i by lia.
    by rewrite list_lookup_fmap, Hi.
Qed.
End TerminalFacts.

Lemma sleeps_app (xs ys : list event) : sleeps (xs ++ ys) = sleeps xs ++ sleeps ys.
Proof. apply omap_app. Qed.

Lemma sleeps_cycles (indices : list nat) :
  sleeps (flat_map (fun _ : nat => flat_map frame (String.list_ascii_of_string animation))
                   indices) =
  replicate (4 * length indices) 0.1%float.
Proof.
  induction indices as [|i indices IH]; [done|].
  cbn [flat_map]. rewrite sleeps_app, IH.
  replace (4 * length (i :: indices))%nat with (4 + 4 * length indices)%nat by (simpl; lia).
  done.
Qed.

(** The animation sleeps 0.1 s forty times per unit of [duration] (four
    frames in each of [duration * 10] rounds): 4 s of sleep per unit.  It
    ends by writing over the line with 20 blanks; for a duration of 0 or
    less that is all it does. *)
Theorem display_loading_animation_sleeps (duration : Z) :
  sleeps (display_loading_animation duration) =
    replicate (40 * Z.to_nat duration) 0.1%float ∧
  last (display_loading_animation duration) =
    Some (Write (cr +:+ str_repeat " " 20 +:+ cr)) ∧
  ((duration ≤ 0)%Z →
   display_loading_animation duration = [Write (cr +:+ str_repeat " " 20 +:+ cr)]).
Proof.
  unfold display_loading_animation. split; [|split].
  - rewrite sleeps_app, sleeps_cycles, length_seq, app_nil_r.
    f_equal. lia.
  - apply last_snoc.
  - intros Hd. by replace (Z.to_nat (duration * 10)) with 0%nat by lia.
Qed.

Lemma get_user_selection_first_accepted_typed :
  ∃ name coords,
    hospital_locations !! Z.to_nat (3 - 1) = Some (name, coords) ∧
    get_user_selection decimal hospital_locations (["abc"; "9"; "0"] ++ "3" :: ["5"]) =
      (Returned name, ["5"], rejections decimal ["abc"; "9"; "0"] ++ ask).
Proof.
  apply (get_user_selection_first_accepted decimal hospital_locations
           ["abc"; "9"; "0"] "3" ["5"] 3).
  - repeat constructor.
  - reflexivity.
  - simpl. lia.
Defined.

Lemma get_user_selection_end_of_input_typed :
  get_user_selection decimal hospital_locations ["abc"; "9"] =
    (EOFError, [], rejections decimal ["abc"; "9"] ++ ask).
Proof.
  apply (get_user_selection_end_of_input decimal hospital_locations ["abc"; "9"]).
  repeat constructor.
Defined.

Lemma get_user_selection_returns_listed_typed :
  "Velammal Medical College Hospital" ∈ hospital_locations.*1 ∧
  (length ["5"] < length typed_lines)%nat.
Proof.
  apply (get_user_selection_returns_listed decimal hospital_locations typed_lines ["5"]
           "Velammal Medical College Hospital"
           (get_user_selection decimal hospital_locations typed_lines).2).
  vm_compute. reflexivity.
Defined.

Lemma displayed_number_selects_hospital_third :
  print (pretty 3%nat +:+ ". " +:+ "Velammal Medical College Hospital")
    ∈ display_hospitals plain_repr hospital_locations ∧
  ∀ line rest, decimal line = Some (Z.of_nat 3) →
    get_user_selection decimal hospital_locations (line :: rest) =
      (Returned "Velammal Medical College Hospital", rest, ask).
Proof.
  apply (displayed_number_selects_hospital plain_repr decimal hospital_locations 2%nat
           "Velammal Medical College Hospital" (9.886849012033327, 78.15014381533766)%float).
  reflexivity.
Defined.

Lemma display_loading_animation_sleeps_none :
  display_loading_animation (-3) = [Write (cr +:+ str_repeat " " 20 +:+ cr)].
Proof.
  destruct (display_loading_animation_sleeps (-3)) as (_ & _ & Hnone).
  apply Hnone. lia.
Defined.
